(** * QueryableList: the filter-argument parser and the AND/OR evaluators

    A shallow embedding of [QueryableList/Base.py]:
    - [FILTER_PARAM_RE], the regular expression that splits an argument
      name into a field and a filter type;
    - [getFiltersFromArgs], which turns keyword arguments into one list
      of [(field, value)] pairs per filter type;
    - [QueryableListBase.filterAnd] and [QueryableListBase.filterOr].

    Python values are kept abstract behind the class [PyModel]; the
    module [Dicts] instantiates it with a concrete value type and
    dictionary records, on which the examples run. *)

From Stdlib Require Import ZArith Ascii String List Bool Lia.
From stdpp Require Import base option list strings gmap fin_maps.

Local Open Scope string_scope.

(** ** Exceptions and results *)

(** The exceptions the modelled code can raise or let through. *)
Inductive exn : Type :=
| ValueError (msg : string)
| AttributeError
| TypeError
| NameError (name : string)
| KeyError (key : string)
| NotImplementedError.

Inductive result (A : Type) : Type :=
| Ok (a : A)
| Raise (e : exn).
Arguments Ok {A} a.
Arguments Raise {A} e.

Definition bind {A B : Type} (m : result A) (k : A -> result B) : result B :=
  match m with
  | Ok a => k a
  | Raise e => Raise e
  end.

Notation "'do' x <- m ; k" := (bind m (fun x => k))
  (at level 10, x name, m at level 100, k at level 200,
   format "'[v' 'do'  x  <-  m ; '/' k ']'").

(** ** FILTER_PARAM_RE

    [re.compile('^(?P<field>.+)__(?P<filterType>.+)$')], used through
    [match]. A dot matches every character but the newline; both groups
    are greedy; [$] matches at the end of the string and just before a
    newline that is the last character. *)

Definition newline : ascii := Ascii.ascii_of_nat 10.
Definition underscore : ascii := Ascii.ascii_of_nat 95.

(** The string made of one newline. *)
Definition nl : string := String newline EmptyString.

(** The string holds no underscore. *)
Fixpoint no_underscore (s : string) : bool :=
  match s with
  | EmptyString => true
  | String c s' => negb (Ascii.eqb c underscore) && no_underscore s'
  end.

Definition dot (c : ascii) : bool := negb (Ascii.eqb c newline).

Fixpoint all_dot (s : string) : bool :=
  match s with
  | EmptyString => true
  | String c s' => dot c && all_dot s'
  end.

(** [(?P<filterType>.+)$] on the rest of the key: the longest run of
    non-newline characters, followed by the end of the string or by one
    final newline. The result is the group. *)
Fixpoint match_filterType (s : string) : option string :=
  match s with
  | EmptyString => None
  | String c s' =>
      if dot c then
        match s' with
        | EmptyString => Some (String c EmptyString)
        | String c' EmptyString =>
            if dot c' then Some (String c (String c' EmptyString))
            else Some (String c EmptyString)
        | _ => option_map (String c) (match_filterType s')
        end
      else None
  end.

(** [__(?P<filterType>.+)$] *)
Definition match_tail (s : string) : option string :=
  match s with
  | String c1 (String c2 t) =>
      if Ascii.eqb c1 underscore && Ascii.eqb c2 underscore
      then match_filterType t else None
  | _ => None
  end.

(** The group [field] has consumed [pre], at least one character; [s]
    is what is left. Greedy: first try to take one more
    character into the field, and only when that fails end the field
    here. *)
Fixpoint match_field (pre : string) (s : string) : option (string * string) :=
  let here :=
    match match_tail s with
    | Some ft => Some (pre, ft)
    | None => None
    end in
  match s with
  | EmptyString => None
  | String c s' =>
      if dot c then
        match match_field (pre +:+ String c EmptyString) s' with
        | Some r => Some r
        | None => here
        end
      else here
  end.

(** [FILTER_PARAM_RE.match(key)], as [Some (field, filterType)] or
    [None]. *)
Definition FILTER_PARAM_RE_match (key : string) : option (string * string) :=
  match key with
  | EmptyString => None
  | String c s => if dot c then match_field (String c EmptyString) s else None
  end.

(** ** The Python object model

    The operations of Python the code relies on, for whatever values the
    records hold, and the accessor [_get_item_value] that the subclasses
    of [QueryableListBase] implement. Each operation that can raise
    returns a [result]. *)

Class PyModel : Type := {
  value : Type;
  item : Type;
  VNone : value;
  VTrue : value;
  VFalse : value;
  (** [type(v) is bool] *)
  type_is_bool : value -> bool;
  (** [x is v] ; [x is not v] is its negation *)
  py_is : value -> value -> bool;
  (** [x == v] and [x != v] *)
  py_eq : value -> value -> bool;
  py_ne : value -> value -> bool;
  (** [x < v], [x <= v], [x > v], [x >= v] *)
  py_lt : value -> value -> result bool;
  py_le : value -> value -> result bool;
  py_gt : value -> value -> result bool;
  py_ge : value -> value -> result bool;
  (** [py_in x c] is [x in c] ; [x not in c] is its negation *)
  py_in : value -> value -> result bool;
  (** the elements that [for e in v] goes through *)
  py_iter : value -> result (list value);
  (** [v.lower()] *)
  py_lower : value -> result value;
  (** [set(v)] *)
  py_set : value -> result value;
  (** the accessor of the implementing class *)
  _get_item_value : item -> string -> result value;
  (** [True] and [False] are the two objects of type [bool] *)
  type_is_bool_True : type_is_bool VTrue = true;
  type_is_bool_False : type_is_bool VFalse = true;
  py_is_True_True : py_is VTrue VTrue = true;
  py_is_False_True : py_is VFalse VTrue = false;
  (** [!=] is the negation of [==] (the default [__ne__]) *)
  py_ne_eq : forall x v, py_ne x v = negb (py_eq x v)
}.

Definition neg_result (m : result bool) : result bool :=
  do b <- m; Ok (negb b).

(** [x not in c] *)
Definition py_not_in `{PyModel} (x c : value) : result bool :=
  neg_result (py_in x c).

(** ** FILTER_TYPES *)

(** Modelled from the spec: [FILTER_TYPES] is imported from the package's
    [__init__], which is not part of the sources at hand. It is the
    operator vocabulary of the specification (section 6): the canonical
    operators and [isnull]. *)
Definition FILTER_TYPES : list string :=
  [ "eq"; "ieq"; "ne"; "ine"; "lt"; "lte"; "gt"; "gte"; "is"; "isnot";
    "isnull"; "in"; "notin"; "contains"; "notcontains"; "containsAny";
    "notcontainsAny" ].

(** [x in FILTER_TYPES] *)
Definition in_FILTER_TYPES (x : string) : bool :=
  existsb (String.eqb x) FILTER_TYPES.

(** [', '.join(l)] *)
Fixpoint join (sep : string) (l : list string) : string :=
  match l with
  | [] => ""
  | [x] => x
  | x :: l' => x +:+ sep +:+ join sep l'
  end.

Definition dquote : string := String (Ascii.ascii_of_nat 34) EmptyString.

(** ['Unknown filter type: %s. Choices are: (%s)' %(filterType, ', '.join(FILTER_TYPES))] *)
Definition unknown_filter_msg (filterType : string) : string :=
  "Unknown filter type: " +:+ filterType +:+ ". Choices are: ("
    +:+ join ", " FILTER_TYPES +:+ ")".

(** ['Filter type "isnull" requires True/False.'] *)
Definition isnull_msg : string :=
  "Filter type " +:+ dquote +:+ "isnull" +:+ dquote +:+ " requires True/False.".

(** ** getFiltersFromArgs *)

Section Parser.
Context `{M : PyModel}.

(** A [(fieldName, matchingValue)] tuple. *)
Definition clause : Type := string * value.

(** The dictionary [ret]: the sixteen keys, each with an empty list. *)
Definition ret0 : gmap string (list clause) :=
  list_to_map
    [ ("eq", []); ("ieq", []); ("ne", []); ("ine", []); ("lt", []);
      ("gt", []); ("lte", []); ("gte", []); ("is", []); ("isnot", []);
      ("in", []); ("notin", []); ("contains", []); ("notcontains", []);
      ("containsAny", []); ("notcontainsAny", []) ].

(** [d[k]] *)
Definition dict_get (d : gmap string (list clause)) (k : string)
  : result (list clause) :=
  match d !! k with
  | Some l => Ok l
  | None => Raise (KeyError k)
  end.

(** [ret[filterType].append( (field, value) )] *)
Definition dict_append (d : gmap string (list clause)) (k : string) (c : clause)
  : result (gmap string (list clause)) :=
  do l <- dict_get d k;
  Ok (<[k := (l ++ [c])%list]> d).

(** The part of the loop body under [else:], after the two groups are
    read: the check of the filter type and the normalisation of the
    value. It gives the filter type and the value to record. *)
Definition normalize (filterType : string) (v : value) : result (string * value) :=
  if negb (in_FILTER_TYPES filterType) then
    Raise (ValueError (unknown_filter_msg filterType))
  else if String.eqb filterType "isnull" then
    if negb (type_is_bool v) then Raise (ValueError isnull_msg)
    else if py_is v VTrue then Ok ("is", VNone)
    else Ok ("isnot", VNone)
  else if String.eqb filterType "in" || String.eqb filterType "notin" then
    Ok (filterType, match py_set v with Ok s => s | Raise _ => v end)
  else if String.eqb filterType "ieq" || String.eqb filterType "ine" then
    do l <- py_lower v;
    Ok (filterType, l)
  else Ok (filterType, v).

(** One turn of [for key, value in kwargs.items()]. *)
Definition parse_arg (ret : gmap string (list clause)) (kv : string * value)
  : result (gmap string (list clause)) :=
  let '(key, v) := kv in
  match FILTER_PARAM_RE_match key with
  | None => dict_append ret "eq" (key, v)
  | Some (field, filterType) =>
      do fv <- normalize filterType v;
      dict_append ret (fst fv) (field, snd fv)
  end.

Fixpoint parse_args (ret : gmap string (list clause)) (kwargs : list (string * value))
  : result (gmap string (list clause)) :=
  match kwargs with
  | [] => Ok ret
  | kv :: rest =>
      do ret' <- parse_arg ret kv;
      parse_args ret' rest
  end.

(** [kwargs] is the dictionary of the keyword arguments, as the list of
    its items in iteration order. *)
Definition getFiltersFromArgs (kwargs : list (string * value))
  : result (gmap string (list clause)) :=
  parse_args ret0 kwargs.

End Parser.

(** ** filterAnd and filterOr *)

Section Evaluator.
Context `{M : PyModel}.

(** How the body of a [for fieldName, value in filters[...]] loop ends:
    it falls through or says [continue], or it assigns [keepIt] and
    says [break]. *)
Inductive ctl : Type :=
| Next
| Break (keepIt : bool).

(** [for fieldName, value in cs: body], started with the current value
    of [keepIt]; the result is the value of [keepIt] after the loop. *)
Fixpoint for_clauses (body : string -> value -> result ctl)
    (cs : list clause) (keepIt : bool) : result bool :=
  match cs with
  | [] => Ok keepIt
  | (fieldName, v) :: cs' =>
      do c <- body fieldName v;
      match c with
      | Next => for_clauses body cs' keepIt
      | Break b => Ok b
      end
  end.

(** [didContain = False
     for maybeContains in value:
         if maybeContains in itemValue:
             didContain = True
             break]
    on the elements of [value]; the result is [didContain]. *)
Fixpoint any_in (elems : list value) (itemValue : value) : result bool :=
  match elems with
  | [] => Ok false
  | maybeContains :: rest =>
      do b <- py_in maybeContains itemValue;
      if b then Ok true else any_in rest itemValue
  end.

Definition didContain (v itemValue : value) : result bool :=
  do elems <- py_iter v;
  any_in elems itemValue.

(** The name [Value], read in the two [notcontainsAny] loops: neither
    function binds it, the module does not define it and it is no
    builtin, so reading it raises [NameError]. *)
Definition name_Value : result value := Raise (NameError "Value").

(** *** The loop bodies of filterAnd *)

Definition and_is (it : item) (fieldName : string) (v : value) : result ctl :=
  do x <- _get_item_value it fieldName;
  if negb (py_is x v) then Ok (Break false) else Ok Next.

Definition and_isnot (it : item) (fieldName : string) (v : value) : result ctl :=
  do x <- _get_item_value it fieldName;
  if py_is x v then Ok (Break false) else Ok Next.

Definition and_in (it : item) (fieldName : string) (v : value) : result ctl :=
  do x <- _get_item_value it fieldName;
  do b <- py_not_in x v;
  if b then Ok (Break false) else Ok Next.

Definition and_notin (it : item) (fieldName : string) (v : value) : result ctl :=
  do x <- _get_item_value it fieldName;
  do b <- py_in x v;
  if b then Ok (Break false) else Ok Next.

Definition and_eq (it : item) (fieldName : string) (v : value) : result ctl :=
  do x <- _get_item_value it fieldName;
  if py_ne x v then Ok (Break false) else Ok Next.

Definition and_ieq (it : item) (fieldName : string) (v : value) : result ctl :=
  do itemValue <- _get_item_value it fieldName;
  match py_lower itemValue with
  | Raise _ => Ok (Break false)
  | Ok itemValueLower =>
      if py_ne itemValueLower v then Ok (Break false) else Ok Next
  end.

Definition and_ne (it : item) (fieldName : string) (v : value) : result ctl :=
  do x <- _get_item_value it fieldName;
  if py_eq x v then Ok (Break false) else Ok Next.

Definition and_ine (it : item) (fieldName : string) (v : value) : result ctl :=
  do itemValue <- _get_item_value it fieldName;
  match py_lower itemValue with
  | Raise _ => Ok Next
  | Ok itemValueLower =>
      if py_eq itemValueLower v then Ok (Break false) else Ok Next
  end.

Definition and_lt (it : item) (fieldName : string) (v : value) : result ctl :=
  do x <- _get_item_value it fieldName;
  do b <- py_ge x v;
  if b then Ok (Break false) else Ok Next.

Definition and_lte (it : item) (fieldName : string) (v : value) : result ctl :=
  do x <- _get_item_value it fieldName;
  do b <- py_gt x v;
  if b then Ok (Break false) else Ok Next.

Definition and_gt (it : item) (fieldName : string) (v : value) : result ctl :=
  do x <- _get_item_value it fieldName;
  do b <- py_le x v;
  if b then Ok (Break false) else Ok Next.

Definition and_gte (it : item) (fieldName : string) (v : value) : result ctl :=
  do x <- _get_item_value it fieldName;
  do b <- py_lt x v;
  if b then Ok (Break false) else Ok Next.

Definition and_contains (it : item) (fieldName : string) (v : value) : result ctl :=
  do itemValue <- _get_item_value it fieldName;
  match py_not_in v itemValue with
  | Raise _ => Ok (Break false)
  | Ok b => if b then Ok (Break false) else Ok Next
  end.

Definition and_notcontains (it : item) (fieldName : string) (v : value) : result ctl :=
  do itemValue <- _get_item_value it fieldName;
  match py_in v itemValue with
  | Raise _ => Ok Next
  | Ok b => if b then Ok (Break false) else Ok Next
  end.

Definition and_containsAny (it : item) (fieldName : string) (v : value) : result ctl :=
  do itemValue <- _get_item_value it fieldName;
  do d <- didContain v itemValue;
  if negb d then Ok (Break false) else Ok Next.

Definition and_notcontainsAny (it : item) (fieldName : string) (v : value) : result ctl :=
  do itemValue <- _get_item_value it fieldName;
  do Value <- name_Value;
  do d <- didContain Value itemValue;
  if d then Ok (Break false) else Ok Next.

(** The loops of [filterAnd], in the order of the source. *)
Definition and_stages : list (string * (item -> string -> value -> result ctl)) :=
  [ ("is", and_is); ("isnot", and_isnot); ("in", and_in); ("notin", and_notin);
    ("eq", and_eq); ("ieq", and_ieq); ("ne", and_ne); ("ine", and_ine);
    ("lt", and_lt); ("lte", and_lte); ("gt", and_gt); ("gte", and_gte);
    ("contains", and_contains); ("notcontains", and_notcontains);
    ("containsAny", and_containsAny); ("notcontainsAny", and_notcontainsAny) ].

(** The body of [for item in self] from a given loop on: each loop is
    followed by [if keepIt is False: continue]; after the last one the
    item is appended. The result says whether it is. *)
Fixpoint and_from (stages : list (string * (item -> string -> value -> result ctl)))
    (filters : gmap string (list clause)) (it : item) (keepIt : bool) : result bool :=
  match stages with
  | [] => Ok true
  | (k, body) :: rest =>
      do cs <- dict_get filters k;
      do keepIt' <- for_clauses (body it) cs keepIt;
      if negb keepIt' then Ok false else and_from rest filters it keepIt'
  end.

Definition and_item (filters : gmap string (list clause)) (it : item) : result bool :=
  and_from and_stages filters it true.

(** [for item in self], with [ret] threaded through. *)
Fixpoint and_loop (filters : gmap string (list clause)) (items : list item)
    (ret : list item) : result (list item) :=
  match items with
  | [] => Ok ret
  | it :: rest =>
      do keep <- and_item filters it;
      and_loop filters rest (if keep then (ret ++ [it])%list else ret)
  end.

Definition filterAnd (self : list item) (kwargs : list (string * value))
  : result (list item) :=
  do filters <- getFiltersFromArgs kwargs;
  and_loop filters self [].

(** *** The loop bodies of filterOr *)

Definition or_is (it : item) (fieldName : string) (v : value) : result ctl :=
  do x <- _get_item_value it fieldName;
  if py_is x v then Ok (Break true) else Ok Next.

Definition or_isnot (it : item) (fieldName : string) (v : value) : result ctl :=
  do x <- _get_item_value it fieldName;
  if negb (py_is x v) then Ok (Break true) else Ok Next.

Definition or_in (it : item) (fieldName : string) (v : value) : result ctl :=
  do x <- _get_item_value it fieldName;
  do b <- py_in x v;
  if b then Ok (Break true) else Ok Next.

Definition or_notin (it : item) (fieldName : string) (v : value) : result ctl :=
  do x <- _get_item_value it fieldName;
  do b <- py_not_in x v;
  if b then Ok (Break true) else Ok Next.

Definition or_eq (it : item) (fieldName : string) (v : value) : result ctl :=
  do x <- _get_item_value it fieldName;
  if py_eq x v then Ok (Break true) else Ok Next.

Definition or_ieq (it : item) (fieldName : string) (v : value) : result ctl :=
  do itemValue <- _get_item_value it fieldName;
  match py_lower itemValue with
  | Raise _ => Ok (Break false)
  | Ok itemValueLower =>
      if py_eq itemValueLower v then Ok (Break true) else Ok Next
  end.

Definition or_ne (it : item) (fieldName : string) (v : value) : result ctl :=
  do x <- _get_item_value it fieldName;
  if py_ne x v then Ok (Break true) else Ok Next.

Definition or_ine (it : item) (fieldName : string) (v : value) : result ctl :=
  do itemValue <- _get_item_value it fieldName;
  match py_lower itemValue with
  | Raise _ => Ok Next
  | Ok itemValueLower =>
      if py_ne itemValueLower v then Ok (Break true) else Ok Next
  end.

Definition or_lt (it : item) (fieldName : string) (v : value) : result ctl :=
  do x <- _get_item_value it fieldName;
  do b <- py_lt x v;
  if b then Ok (Break true) else Ok Next.

Definition or_lte (it : item) (fieldName : string) (v : value) : result ctl :=
  do x <- _get_item_value it fieldName;
  do b <- py_le x v;
  if b then Ok (Break true) else Ok Next.

Definition or_gt (it : item) (fieldName : string) (v : value) : result ctl :=
  do x <- _get_item_value it fieldName;
  do b <- py_gt x v;
  if b then Ok (Break true) else Ok Next.

Definition or_gte (it : item) (fieldName : string) (v : value) : result ctl :=
  do x <- _get_item_value it fieldName;
  do b <- py_ge x v;
  if b then Ok (Break true) else Ok Next.

Definition or_contains (it : item) (fieldName : string) (v : value) : result ctl :=
  do itemValue <- _get_item_value it fieldName;
  match py_in v itemValue with
  | Raise _ => Ok Next
  | Ok b => if b then Ok (Break true) else Ok Next
  end.

Definition or_notcontains (it : item) (fieldName : string) (v : value) : result ctl :=
  do itemValue <- _get_item_value it fieldName;
  match py_not_in v itemValue with
  | Raise _ => Ok (Break true)
  | Ok b => if b then Ok (Break true) else Ok Next
  end.

Definition or_containsAny (it : item) (fieldName : string) (v : value) : result ctl :=
  do itemValue <- _get_item_value it fieldName;
  do d <- didContain v itemValue;
  if d then Ok (Break true) else Ok Next.

Definition or_notcontainsAny (it : item) (fieldName : string) (v : value) : result ctl :=
  do itemValue <- _get_item_value it fieldName;
  do Value <- name_Value;
  do d <- didContain Value itemValue;
  if negb d then Ok (Break true) else Ok Next.

(** The loops of [filterOr], in the order of the source. *)
Definition or_stages : list (string * (item -> string -> value -> result ctl)) :=
  [ ("is", or_is); ("isnot", or_isnot); ("in", or_in); ("notin", or_notin);
    ("eq", or_eq); ("ieq", or_ieq); ("ne", or_ne); ("ine", or_ine);
    ("lt", or_lt); ("lte", or_lte); ("gt", or_gt); ("gte", or_gte);
    ("contains", or_contains); ("notcontains", or_notcontains);
    ("containsAny", or_containsAny); ("notcontainsAny", or_notcontainsAny) ].

(** The body of [for item in self] from a given loop on: each loop is
    followed by [if keepIt is True: ret.append(item); continue]; after
    the last one the item is left out. The result says whether the item
    is appended. *)
Fixpoint or_from (stages : list (string * (item -> string -> value -> result ctl)))
    (filters : gmap string (list clause)) (it : item) (keepIt : bool) : result bool :=
  match stages with
  | [] => Ok false
  | (k, body) :: rest =>
      do cs <- dict_get filters k;
      do keepIt' <- for_clauses (body it) cs keepIt;
      if keepIt' then Ok true else or_from rest filters it keepIt'
  end.

Definition or_item (filters : gmap string (list clause)) (it : item) : result bool :=
  or_from or_stages filters it false.

Fixpoint or_loop (filters : gmap string (list clause)) (items : list item)
    (ret : list item) : result (list item) :=
  match items with
  | [] => Ok ret
  | it :: rest =>
      do keep <- or_item filters it;
      or_loop filters rest (if keep then (ret ++ [it])%list else ret)
  end.

Definition filterOr (self : list item) (kwargs : list (string * value))
  : result (list item) :=
  do filters <- getFiltersFromArgs kwargs;
  or_loop filters self [].

End Evaluator.

(** ** A concrete object model: dictionaries of built-in values *)

Module Dicts.

(** Built-in values. [None], [True] and [False] are single objects.
    Lists, sets and plain objects carry the number of the object they
    are, which is what [is] compares. Integers and strings are immutable
    and equal ones are taken to be one object, as an implementation may
    do. Strings are ASCII text. *)
#[warnings="-register-all"]
Inductive pyval : Type :=
| PNone
| PBool (b : bool)
| PInt (z : Z)
| PStr (s : string)
| PList (oid : nat) (l : list pyval)
| PSet (oid : nat) (l : list pyval)
| PObj (oid : nat).

Definition p_type_is_bool (x : pyval) : bool :=
  match x with PBool _ => true | _ => false end.

Definition p_is (x y : pyval) : bool :=
  match x, y with
  | PNone, PNone => true
  | PBool a, PBool b => Bool.eqb a b
  | PInt a, PInt b => Z.eqb a b
  | PStr a, PStr b => String.eqb a b
  | PList i _, PList j _ => Nat.eqb i j
  | PSet i _, PSet j _ => Nat.eqb i j
  | PObj i, PObj j => Nat.eqb i j
  | _, _ => false
  end.

(** [bool] is a subclass of [int]: [True == 1]. *)
Definition as_num (x : pyval) : option Z :=
  match x with
  | PBool true => Some 1%Z
  | PBool false => Some 0%Z
  | PInt z => Some z
  | _ => None
  end.

Fixpoint p_eq (x y : pyval) : bool :=
  match x, y with
  | PNone, PNone => true
  | PStr a, PStr b => String.eqb a b
  | PList _ l1, PList _ l2 =>
      (fix go (l1 l2 : list pyval) : bool :=
         match l1, l2 with
         | [], [] => true
         | a :: l1', b :: l2' => p_eq a b && go l1' l2'
         | _, _ => false
         end) l1 l2
  | PSet _ l1, PSet _ l2 =>
      forallb (fun a => existsb (fun b => p_eq a b) l2) l1
      && forallb (fun b => existsb (fun a => p_eq a b) l1) l2
  | PObj i, PObj j => Nat.eqb i j
  | _, _ =>
      match as_num x, as_num y with
      | Some a, Some b => Z.eqb a b
      | _, _ => false
      end
  end.

Inductive ordop : Type := OLt | OLe | OGt | OGe.

Definition ord_of (o : ordop) (c : comparison) : bool :=
  match o, c with
  | OLt, Lt => true
  | OLe, (Lt | Eq) => true
  | OGt, Gt => true
  | OGe, (Gt | Eq) => true
  | _, _ => false
  end.

(** [l1 <= l2] on sets: every element of [l1] is in [l2]. *)
Definition subset (l1 l2 : list pyval) : bool :=
  forallb (fun a => existsb (fun b => p_eq a b) l2) l1.

(** The ordering comparisons: numbers by value, strings and lists
    lexicographically, sets by inclusion; everything else raises
    [TypeError]. *)
Fixpoint p_ord (o : ordop) (x y : pyval) : result bool :=
  match x, y with
  | PStr a, PStr b => Ok (ord_of o (String.compare a b))
  | PList _ l1, PList _ l2 =>
      (fix go (l1 l2 : list pyval) : result bool :=
         match l1, l2 with
         | a :: l1', b :: l2' => if p_eq a b then go l1' l2' else p_ord o a b
         | _, _ => Ok (ord_of o (Nat.compare (length l1) (length l2)))
         end) l1 l2
  | PSet _ l1, PSet _ l2 =>
      Ok (match o with
          | OLt => subset l1 l2 && negb (subset l2 l1)
          | OLe => subset l1 l2
          | OGt => subset l2 l1 && negb (subset l1 l2)
          | OGe => subset l2 l1
          end)
  | _, _ =>
      match as_num x, as_num y with
      | Some a, Some b => Ok (ord_of o (Z.compare a b))
      | _, _ => Raise TypeError
      end
  end.

(** [t in s] on strings: [t] occurs in [s]. *)
Fixpoint substr (t s : string) : bool :=
  String.prefix t s
  || match s with
     | EmptyString => false
     | String _ s' => substr t s'
     end.

Definition hashable (x : pyval) : bool :=
  match x with
  | PList _ _ | PSet _ _ => false
  | _ => true
  end.

(** [x in c] *)
Definition p_in (x c : pyval) : result bool :=
  match c with
  | PStr s =>
      match x with
      | PStr t => Ok (substr t s)
      | _ => Raise TypeError
      end
  | PList _ l => Ok (existsb (fun e => p_is e x || p_eq e x) l)
  | PSet _ l =>
      match x with
      | PList _ _ => Raise TypeError
      | _ => Ok (existsb (fun e => p_eq e x) l)
      end
  | _ => Raise TypeError
  end.

Fixpoint chars (s : string) : list pyval :=
  match s with
  | EmptyString => []
  | String c s' => PStr (String c EmptyString) :: chars s'
  end.

Definition p_iter (x : pyval) : result (list pyval) :=
  match x with
  | PStr s => Ok (chars s)
  | PList _ l => Ok l
  | PSet _ l => Ok l
  | _ => Raise TypeError
  end.

(** [str.lower] on ASCII text: only the letters A to Z change. *)
Definition lower_ascii (c : ascii) : ascii :=
  let n := Ascii.nat_of_ascii c in
  if (65 <=? n)%nat && (n <=? 90)%nat then Ascii.ascii_of_nat (n + 32) else c.

Fixpoint lower (s : string) : string :=
  match s with
  | EmptyString => EmptyString
  | String c s' => String (lower_ascii c) (lower s')
  end.

Definition p_lower (x : pyval) : result pyval :=
  match x with
  | PStr s => Ok (PStr (lower s))
  | _ => Raise AttributeError
  end.

(** The elements of a new set: the first of each group of equal ones. *)
Fixpoint dedup (l : list pyval) (seen : list pyval) : list pyval :=
  match l with
  | [] => []
  | x :: l' =>
      if existsb (fun e => p_eq e x) seen then dedup l' seen
      else x :: dedup l' (x :: seen)
  end.

(** [set(x)]. Which object the new set is cannot be told by the code
    above, which only ever tests membership in it; it gets number 0. *)
Definition p_set (x : pyval) : result pyval :=
  do elems <- p_iter x;
  if forallb hashable elems then Ok (PSet 0 (dedup elems [])) else Raise TypeError.

(** A record is a dictionary, read with [item[fieldName]]. *)
Definition p_get (it : gmap string pyval) (fieldName : string) : result pyval :=
  match it !! fieldName with
  | Some x => Ok x
  | None => Raise (KeyError fieldName)
  end.

#[export] Instance dict_model : PyModel := {|
  value := pyval;
  item := gmap string pyval;
  VNone := PNone;
  VTrue := PBool true;
  VFalse := PBool false;
  type_is_bool := p_type_is_bool;
  py_is := p_is;
  py_eq := p_eq;
  py_ne := fun x y => negb (p_eq x y);
  py_lt := p_ord OLt;
  py_le := p_ord OLe;
  py_gt := p_ord OGt;
  py_ge := p_ord OGe;
  py_in := p_in;
  py_iter := p_iter;
  py_lower := p_lower;
  py_set := p_set;
  _get_item_value := p_get;
  type_is_bool_True := eq_refl;
  type_is_bool_False := eq_refl;
  py_is_True_True := eq_refl;
  py_is_False_True := eq_refl;
  py_ne_eq := fun _ _ => eq_refl
|}.

(** [dict(...)] from its items. *)
Definition dict (kvs : list (string * pyval)) : gmap string pyval :=
  list_to_map kvs.

(** The records of the end-to-end scenario of the specification, and a
    few more. *)
Definition tom : gmap string pyval := dict [("name", PStr "Tom"); ("age", PInt 30)].
Definition amy : gmap string pyval := dict [("name", PStr "amy"); ("age", PInt 25)].
Definition sam : gmap string pyval := dict [("name", PStr "Sam"); ("age", PInt 30)].
Definition nobody : gmap string pyval := dict [("name", PNone); ("age", PNone)].
Definition rec_xyz : gmap string pyval := dict [("a", PStr "xyz")].
Definition rec_5 : gmap string pyval := dict [("a", PInt 5)].
Definition rec_5_Foo : gmap string pyval := dict [("a", PInt 5); ("b", PStr "Foo")].

(** A record whose field [a] is the set [{1}], and the argument
    [a__gte={2}] with the FilterSpec it parses to: neither set includes
    the other. *)
Definition rec_set : gmap string pyval := dict [("a", PSet 1 [PInt 1])].
Definition kw_gte_set : list (string * pyval) := [("a__gte", PSet 2 [PInt 2])].
Definition F_gte_set : gmap string (list (string * pyval)) :=
  <["gte" := [("a", PSet 2 [PInt 2])]]> ret0.

(** [age__eq=30, name__ine="tom"] *)
Definition kw_eq_ine : list (string * pyval) :=
  [("age__eq", PInt 30); ("name__ine", PStr "tom")].

(** [age__gte=30, name__ine="tom"] and the FilterSpec it parses to. *)
Definition kw_gte_ine : list (string * pyval) :=
  [("age__gte", PInt 30); ("name__ine", PStr "tom")].
Definition F_gte_ine : gmap string (list (string * pyval)) :=
  <["ine" := [("name", PStr "tom")]]> (<["gte" := [("age", PInt 30)]]> ret0).

End Dicts.

(** ** The match conditions of the specification *)

Section MatchConditions.
Context `{M : PyModel}.

(** The canonical operators, in the order in which [filterAnd] and
    [filterOr] go through them. *)
Inductive operator : Type :=
| OpIs | OpIsnot | OpIn | OpNotin | OpEq | OpIeq | OpNe | OpIne
| OpLt | OpLte | OpGt | OpGte
| OpContains | OpNotcontains | OpContainsAny | OpNotcontainsAny.

Definition operators : list operator :=
  [ OpIs; OpIsnot; OpIn; OpNotin; OpEq; OpIeq; OpNe; OpIne;
    OpLt; OpLte; OpGt; OpGte;
    OpContains; OpNotcontains; OpContainsAny; OpNotcontainsAny ].

Definition op_name (op : operator) : string :=
  match op with
  | OpIs => "is" | OpIsnot => "isnot" | OpIn => "in" | OpNotin => "notin"
  | OpEq => "eq" | OpIeq => "ieq" | OpNe => "ne" | OpIne => "ine"
  | OpLt => "lt" | OpLte => "lte" | OpGt => "gt" | OpGte => "gte"
  | OpContains => "contains" | OpNotcontains => "notcontains"
  | OpContainsAny => "containsAny" | OpNotcontainsAny => "notcontainsAny"
  end.

Definition is_true (m : result bool) : bool :=
  match m with Ok true => true | _ => false end.

(** Some element of [v] is contained in [x]. *)
Definition contains_any (x v : value) : result bool :=
  do elems <- py_iter v;
  Ok (existsb (fun e => is_true (py_in e x)) elems).

(** The table of per-operator match conditions: [x] is the value of the
    field, [v] the value of the clause. For [ine] a field value that
    cannot be case-folded does not equal [v]. *)
Definition matches (op : operator) (x v : value) : result bool :=
  match op with
  | OpEq => Ok (py_eq x v)
  | OpIeq =>
      match py_lower x with
      | Ok xl => Ok (py_eq xl v)
      | Raise _ => Ok false
      end
  | OpNe => Ok (py_ne x v)
  | OpIne =>
      match py_lower x with
      | Ok xl => Ok (py_ne xl v)
      | Raise _ => Ok true
      end
  | OpLt => py_lt x v
  | OpLte => py_le x v
  | OpGt => py_gt x v
  | OpGte => py_ge x v
  | OpIs => Ok (py_is x v)
  | OpIsnot => Ok (negb (py_is x v))
  | OpIn => py_in x v
  | OpNotin => py_not_in x v
  | OpContains =>
      match py_in v x with
      | Ok b => Ok b
      | Raise _ => Ok false
      end
  | OpNotcontains =>
      match py_in v x with
      | Ok b => Ok (negb b)
      | Raise _ => Ok true
      end
  | OpContainsAny => contains_any x v
  | OpNotcontainsAny => neg_result (contains_any x v)
  end.

(** The clause [c] of operator [op] on the record [it]. *)
Definition clause_holds (op : operator) (it : item) (c : clause) : result bool :=
  do x <- _get_item_value it (fst c);
  matches op x (snd c).

Definition satisfied (op : operator) (it : item) (c : clause) : bool :=
  is_true (clause_holds op it c).

(** The clauses a FilterSpec holds for a filter type. *)
Definition clauses_for (F : gmap string (list clause)) (k : string) : list clause :=
  default [] (F !! k).

(** All clauses of a FilterSpec, each with its operator. *)
Definition clauses_of (F : gmap string (list clause)) : list (operator * clause) :=
  flat_map (fun op => map (pair op) (clauses_for F (op_name op))) operators.

(** The record satisfies every clause of the FilterSpec. *)
Definition satisfies_all (F : gmap string (list clause)) (it : item) : bool :=
  forallb (fun oc => satisfied (fst oc) it (snd oc)) (clauses_of F).

(** [x] and [v] are mutually ordered: the four comparisons raise
    together or answer as a total order does, [x >= v] being the
    negation of [x < v] and [x > v] that of [x <= v]. *)
Definition opposite (a b : result bool) : bool :=
  match a, b with
  | Ok p, Ok q => xorb p q
  | Raise _, Raise _ => true
  | _, _ => false
  end.

Definition mutually_ordered (x v : value) : bool :=
  opposite (py_lt x v) (py_ge x v) && opposite (py_le x v) (py_gt x v).

Definition is_ordering (op : operator) : bool :=
  match op with
  | OpLt | OpLte | OpGt | OpGte => true
  | _ => false
  end.

(** The ordering clauses of [F] compare mutually ordered values on the
    records of [R]. *)
Definition well_ordered (op : operator) (it : item) (c : clause) : bool :=
  if is_ordering op then
    match _get_item_value it (fst c) with
    | Ok x => mutually_ordered x (snd c)
    | Raise _ => true
    end
  else true.

Definition ordering_ok (F : gmap string (list clause)) (R : list item) : bool :=
  forallb (fun it => forallb (fun oc => well_ordered (fst oc) it (snd oc)) (clauses_of F)) R.

(** What a loop body of [filterAnd] has to do for the operator [op]:
    going on means the clause holds, breaking means it rejects the
    record on a clause that does not hold. *)
Definition and_body_ok (op : operator)
    (body : item -> string -> value -> result ctl) : Prop :=
  forall it f v, well_ordered op it (f, v) = true ->
    match body it f v with
    | Ok Next => clause_holds op it (f, v) = Ok true
    | Ok (Break b) => b = false /\ clause_holds op it (f, v) = Ok false
    | Raise _ => True
    end.

End MatchConditions.

(** ** What an argument records and what a record passes *)

Section Shapes.
Context `{M : PyModel}.

(** The filter type and the clause that one argument adds to the
    FilterSpec, read off the body of the parser's loop. *)
Definition arg_effect (kv : string * value) : result (string * clause) :=
  match FILTER_PARAM_RE_match (fst kv) with
  | None => Ok ("eq", (fst kv, snd kv))
  | Some (field, filterType) =>
      do fv <- normalize filterType (snd kv);
      Ok (fst fv, (field, snd fv))
  end.

Fixpoint effects (kwargs : list (string * value))
  : result (list (string * clause)) :=
  match kwargs with
  | [] => Ok []
  | kv :: rest =>
      do e <- arg_effect kv;
      do es <- effects rest;
      Ok (e :: es)
  end.

(** The clauses recorded under the filter type [k], in order. *)
Definition picks (k : string) (effs : list (string * clause)) : list clause :=
  map snd (List.filter (fun kc => String.eqb (fst kc) k) effs).

(** The value recorded for a filter type that is neither [isnull] nor
    case-insensitive. *)
Definition recorded (filterType : string) (v : value) : value :=
  if String.eqb filterType "in" || String.eqb filterType "notin"
  then match py_set v with Ok s => s | Raise _ => v end
  else v.

Definition is_next (r : result ctl) : bool :=
  match r with Ok Next => true | _ => false end.

(** No loop body of [filterAnd] rejects the record: each one goes on
    to the next clause. *)
Definition and_accepts (F : gmap string (list clause)) (it : item) : bool :=
  forallb (fun st : string * (item -> string -> value -> result ctl) =>
             forallb (fun c : clause => is_next (snd st it (fst c) (snd c)))
                     (clauses_for F (fst st)))
          and_stages.

(** The record satisfies some clause of the FilterSpec. *)
Definition satisfies_some (F : gmap string (list clause)) (it : item) : bool :=
  existsb (fun oc => satisfied (fst oc) it (snd oc)) (clauses_of F).

(** No [ine] clause and at most one [ieq] clause. *)
Definition plain_or (F : gmap string (list clause)) : bool :=
  match clauses_for F "ine" with [] => true | _ => false end
  && (length (clauses_for F "ieq") <=? 1)%nat.

(** A loop body of [filterOr] that decides its clause: it goes on when
    the clause does not hold and breaks with what the clause says. *)
Definition or_body_exact (op : operator)
    (body : item -> string -> value -> result ctl) : Prop :=
  forall it f v,
    match body it f v with
    | Ok Next => clause_holds op it (f, v) = Ok false
    | Ok (Break b) => clause_holds op it (f, v) = Ok b
    | Raise _ => True
    end.

(** Every loop of [filterOr] accepts only on a clause that holds. *)
Definition or_sound_stage (op : operator)
    (st : string * (item -> string -> value -> result ctl)) : Prop :=
  fst st = op_name op
  /\ forall it f v, snd st it f v = Ok (Break true) ->
                    clause_holds op it (f, v) = Ok true.

(** A loop whose body starts by reading the field: what the accessor
    raises, the body raises. *)
Definition reads_first (st : string * (item -> string -> value -> result ctl)) : Prop :=
  forall it f v e, _get_item_value it f = Raise e -> snd st it f v = Raise e.

(** A loop of [filterOr] that decides its clauses on the FilterSpec
    [F]: it has no clause there, or its body decides a clause and
    either has at most one clause or never breaks with [keepIt] false. *)
Definition or_exact_stage (F : gmap string (list clause)) (op : operator)
    (st : string * (item -> string -> value -> result ctl)) : Prop :=
  fst st = op_name op
  /\ (clauses_for F (op_name op) = []
      \/ (or_body_exact op (snd st)
          /\ (length (clauses_for F (op_name op)) <= 1
              \/ forall it f v, snd st it f v <> Ok (Break false)))).

End Shapes.

(** [QueryableListBase] with its own [_get_item_value], which raises
    [NotImplementedError]; the values are those of [Dicts]. *)
Definition base_model : PyModel := {|
  value := Dicts.pyval;
  item := Dicts.pyval;
  VNone := Dicts.PNone;
  VTrue := Dicts.PBool true;
  VFalse := Dicts.PBool false;
  type_is_bool := Dicts.p_type_is_bool;
  py_is := Dicts.p_is;
  py_eq := Dicts.p_eq;
  py_ne := fun x y => negb (Dicts.p_eq x y);
  py_lt := Dicts.p_ord Dicts.OLt;
  py_le := Dicts.p_ord Dicts.OLe;
  py_gt := Dicts.p_ord Dicts.OGt;
  py_ge := Dicts.p_ord Dicts.OGe;
  py_in := Dicts.p_in;
  py_iter := Dicts.p_iter;
  py_lower := Dicts.p_lower;
  py_set := Dicts.p_set;
  _get_item_value := fun _ _ => Raise NotImplementedError;
  type_is_bool_True := eq_refl;
  type_is_bool_False := eq_refl;
  py_is_True_True := eq_refl;
  py_is_False_True := eq_refl;
  py_ne_eq := fun _ _ => eq_refl
|}.

(** * Properties *)

(** ** The regular expression *)

Example re_plain : FILTER_PARAM_RE_match "age" = None.
Proof. reflexivity. Qed.
Example re_split : FILTER_PARAM_RE_match "age__gt" = Some ("age", "gt").
Proof. reflexivity. Qed.
Example re_last : FILTER_PARAM_RE_match "a__b__ne" = Some ("a__b", "ne").
Proof. reflexivity. Qed.
Example re_greedy : FILTER_PARAM_RE_match "a____b" = Some ("a__", "b").
Proof. reflexivity. Qed.
Example re_backtrack : FILTER_PARAM_RE_match "a___" = Some ("a", "_").
Proof. reflexivity. Qed.
Example re_no_type : FILTER_PARAM_RE_match "a__" = None.
Proof. reflexivity. Qed.
Example re_no_field : FILTER_PARAM_RE_match "__eq" = None.
Proof. reflexivity. Qed.

Lemma append_cons (c : ascii) (a b : string) :
  String c a +:+ b = String c (a +:+ b).
Proof. reflexivity. Qed.

Lemma all_dot_app (a b : string) :
  all_dot (a +:+ b) = all_dot a && all_dot b.
Proof.
  induction a as [|c a IH]; [reflexivity|].
  rewrite append_cons. simpl. rewrite IH. apply andb_assoc.
Qed.

Lemma string_app_assoc (a b c : string) : (a +:+ b) +:+ c = a +:+ (b +:+ c).
Proof.
  induction a as [|x a IH]; [reflexivity|].
  rewrite !append_cons. now rewrite IH.
Qed.

(** What the group [filterType] is, when the end of the key matches. *)
Lemma match_filterType_sound (s t : string) :
  match_filterType s = Some t ->
  t <> "" /\ all_dot t = true /\ (s = t \/ s = t +:+ nl).
Proof.
  revert t. induction s as [|c s IH]; intros t; simpl; [discriminate|].
  destruct (dot c) eqn:Hc; [|discriminate].
  destruct s as [|c' s'].
  - intros [= <-]. simpl. rewrite Hc. auto.
  - destruct s' as [|c'' s''].
    + destruct (dot c') eqn:Hc'; intros [= <-]; simpl; rewrite Hc.
      * rewrite Hc'. auto.
      * split; [discriminate|]. split; [reflexivity|]. right.
        unfold dot in Hc'. apply negb_false_iff, Ascii.eqb_eq in Hc'.
        now subst c'.
    + destruct (match_filterType (String c' (String c'' s''))) as [t'|] eqn:Ht;
        [|discriminate].
      intros [= <-]. destruct (IH t' eq_refl) as (_ & Hd & Hs).
      split; [discriminate|]. split; [simpl; now rewrite Hc, Hd|].
      destruct Hs as [-> | ->]; [left | right]; reflexivity.
Qed.

Lemma match_tail_sound (s t : string) :
  match_tail s = Some t ->
  t <> "" /\ all_dot t = true /\ (s = "__" +:+ t \/ s = "__" +:+ t +:+ nl).
Proof.
  destruct s as [|c1 [|c2 s]]; simpl; try discriminate.
  destruct (Ascii.eqb c1 underscore) eqn:H1; [|discriminate].
  destruct (Ascii.eqb c2 underscore) eqn:H2; [|discriminate]. simpl.
  apply Ascii.eqb_eq in H1, H2. subst c1 c2. intros Ht.
  destruct (match_filterType_sound _ _ Ht) as (Hn & Hd & Hs).
  split; [assumption|]. split; [assumption|].
  destruct Hs as [-> | ->]; [left | right]; reflexivity.
Qed.

Lemma match_field_sound (pre s f t : string) :
  all_dot pre = true -> pre <> "" ->
  match_field pre s = Some (f, t) ->
  f <> "" /\ all_dot f = true /\ t <> "" /\ all_dot t = true /\
  (pre +:+ s = f +:+ "__" +:+ t \/ pre +:+ s = f +:+ "__" +:+ t +:+ nl).
Proof.
  revert pre. induction s as [|c s IH]; intros pre Hpre Hne; [discriminate|].
  assert (Hhere : match match_tail (String c s) with
                         | Some ft => Some (pre, ft) | None => None end = Some (f, t) ->
                  f <> "" /\ all_dot f = true /\ t <> "" /\ all_dot t = true /\
                  (pre +:+ String c s = f +:+ "__" +:+ t
                   \/ pre +:+ String c s = f +:+ "__" +:+ t +:+ nl)).
  { destruct (match_tail (String c s)) as [ft|] eqn:Ht; [|discriminate].
    intros [= <- <-]. destruct (match_tail_sound _ _ Ht) as (Hn & Hd & Hs).
    repeat split; try assumption.
    destruct Hs as [-> | ->]; [left | right]; reflexivity. }
  cbn [match_field]. destruct (dot c) eqn:Hc; [|exact Hhere].
  destruct (match_field (pre +:+ String c "") s) as [[f' t']|] eqn:Hrec;
    [|exact Hhere].
  intros [= -> ->].
  destruct (IH (pre +:+ String c "")) as (H1 & H2 & H3 & H4 & H5).
  - rewrite all_dot_app, Hpre. simpl. now rewrite Hc.
  - destruct pre; discriminate.
  - assumption.
  - rewrite string_app_assoc in H5.
    change (String c "" +:+ s) with (String c s) in H5. auto.
Qed.

(** The groups of a match: the key is [field__filterType], possibly
    followed by one newline; neither group is empty or holds a newline. *)
Lemma FILTER_PARAM_RE_match_sound (key f t : string) :
  FILTER_PARAM_RE_match key = Some (f, t) ->
  f <> "" /\ all_dot f = true /\ t <> "" /\ all_dot t = true /\
  (key = f +:+ "__" +:+ t \/ key = f +:+ "__" +:+ t +:+ nl).
Proof.
  destruct key as [|c s]; [discriminate|]. unfold FILTER_PARAM_RE_match.
  destruct (dot c) eqn:Hc; [|discriminate]. intros H.
  apply (match_field_sound (String c "") s f t); [simpl; now rewrite Hc | discriminate | exact H].
Qed.

(** A non-empty run without newline is the whole group [filterType]. *)
Lemma match_filterType_complete (t : string) :
  t <> "" -> all_dot t = true -> match_filterType t = Some t.
Proof.
  induction t as [|c t IH]; [congruence|]. intros _ Hd.
  cbn [all_dot] in Hd. apply andb_true_iff in Hd as [Hc Ht].
  cbn [match_filterType]. rewrite Hc. destruct t as [|c' t']; [reflexivity|].
  destruct t' as [|c'' t''].
  - cbn [all_dot] in Ht. apply andb_true_iff in Ht as [Hc' _]. now rewrite Hc'.
  - rewrite IH; [reflexivity | discriminate | exact Ht].
Qed.

(** Without an underscore there is nothing to split. *)
Lemma match_field_none (s pre : string) :
  no_underscore s = true -> match_field pre s = None.
Proof.
  revert pre. induction s as [|c s IH]; intros pre Hs; [reflexivity|].
  cbn [no_underscore] in Hs. apply andb_true_iff in Hs as [Hc Hs].
  apply negb_true_iff in Hc. cbn [match_field]. rewrite (IH _ Hs).
  assert (Ht : match_tail (String c s) = None).
  { destruct s; cbn [match_tail]; [reflexivity | now rewrite Hc]. }
  rewrite Ht. now destruct (dot c).
Qed.

Lemma dot_underscore : dot underscore = true.
Proof. reflexivity. Qed.

Lemma match_field_cons (pre : string) (c : ascii) (s : string) :
  match_field pre (String c s)
  = let here := match match_tail (String c s) with
                | Some ft => Some (pre, ft)
                | None => None
                end in
    if dot c then
      match match_field (pre +:+ String c "") s with
      | Some r => Some r
      | None => here
      end
    else here.
Proof. reflexivity. Qed.

Lemma match_field_split (a pre ft : string) :
  all_dot a = true ->
  ft <> "" -> all_dot ft = true -> no_underscore ft = true ->
  match_field pre (a +:+ "__" +:+ ft) = Some (pre +:+ a, ft).
Proof.
  intros Ha Hne Hd Hu. revert pre Ha. induction a as [|c a IH]; intros pre Ha.
  - change ("" +:+ "__" +:+ ft) with (String underscore (String underscore ft)).
    assert (Hrec : match_field (pre +:+ String underscore "") (String underscore ft)
                   = None).
    { rewrite match_field_cons. cbv zeta.
      rewrite dot_underscore, (match_field_none ft _ Hu).
      destruct ft as [|c2 ft']; [congruence|].
      cbn [no_underscore] in Hu. apply andb_true_iff in Hu as [Hc2 _].
      apply negb_true_iff in Hc2. cbn [match_tail]. rewrite Hc2.
      now rewrite andb_false_r. }
    rewrite match_field_cons. cbv zeta. rewrite dot_underscore, Hrec.
    cbn [match_tail]. rewrite Ascii.eqb_refl. cbn [andb].
    rewrite (match_filterType_complete ft Hne Hd).
    f_equal. f_equal. clear. induction pre as [|x pre IHp]; [reflexivity|].
    rewrite append_cons. now rewrite <- IHp.
  - rewrite append_cons. cbn [all_dot] in Ha.
    apply andb_true_iff in Ha as [Hc Ha]. rewrite match_field_cons. cbv zeta.
    rewrite Hc, (IH _ Ha). rewrite string_app_assoc. reflexivity.
Qed.

(** A key [field__filterType] whose field is not empty, whose filter
    type is not empty and holds no underscore, neither with a newline,
    splits into the two. *)
Lemma FILTER_PARAM_RE_match_split (field ft : string) :
  field <> "" -> all_dot field = true ->
  ft <> "" -> all_dot ft = true -> no_underscore ft = true ->
  FILTER_PARAM_RE_match (field +:+ "__" +:+ ft) = Some (field, ft).
Proof.
  intros Hf Hdf Hne Hd Hu. destruct field as [|c a]; [congruence|].
  cbn [all_dot] in Hdf. apply andb_true_iff in Hdf as [Hc Ha].
  rewrite append_cons. unfold FILTER_PARAM_RE_match. rewrite Hc.
  now rewrite (match_field_split a (String c "") ft Ha Hne Hd Hu).
Qed.

(** A key without underscore does not split. *)
Lemma FILTER_PARAM_RE_match_plain (key : string) :
  no_underscore key = true -> FILTER_PARAM_RE_match key = None.
Proof.
  destruct key as [|c s]; [reflexivity|]. cbn [no_underscore].
  intros H. apply andb_true_iff in H as [_ H]. unfold FILTER_PARAM_RE_match.
  rewrite (match_field_none s _ H). now destruct (dot c).
Qed.

(** For a field that is not empty and holds no newline, the keys
    [field__isnull], [field__is] and [field__isnot] split as written. *)
Lemma null_keys_split (field : string) :
  field <> "" -> all_dot field = true ->
  FILTER_PARAM_RE_match (field +:+ "__isnull") = Some (field, "isnull")
  /\ FILTER_PARAM_RE_match (field +:+ "__is") = Some (field, "is")
  /\ FILTER_PARAM_RE_match (field +:+ "__isnot") = Some (field, "isnot").
Proof.
  intros Hf Hd.
  repeat split;
    apply (FILTER_PARAM_RE_match_split field _ Hf Hd);
    (discriminate || reflexivity).
Qed.

(** ** The parser keeps the sixteen keys *)

Section ParserFacts.
Context `{M : PyModel}.

Lemma bind_ok {A B : Type} (m : result A) (k : A -> result B) (b : B) :
  bind m k = Ok b -> exists a, m = Ok a /\ k a = Ok b.
Proof. destruct m as [a|e]; simpl; [eauto | discriminate]. Qed.

(** The filter types under which [normalize] records a clause. *)
Lemma in_FILTER_TYPES_cases (ft : string) :
  in_FILTER_TYPES ft = true ->
  ft = "isnull" \/ In ft (map op_name operators).
Proof.
  unfold in_FILTER_TYPES, FILTER_TYPES. cbn [existsb map operators op_name In].
  rewrite !orb_true_iff, !String.eqb_eq. intuition (auto 20 || discriminate).
Qed.

Lemma normalize_key (ft : string) (v : value) (k : string) (v' : value) :
  normalize ft v = Ok (k, v') -> In k (map op_name operators).
Proof.
  unfold normalize. destruct (in_FILTER_TYPES ft) eqn:Hin; [|discriminate].
  cbn [negb]. apply in_FILTER_TYPES_cases in Hin.
  destruct Hin as [-> | Hin].
  - cbn. destruct (type_is_bool v); [|discriminate]. cbn.
    destruct (py_is v VTrue); intros [= <- <-]; cbn; auto 20.
  - cbn in Hin.
    repeat (destruct Hin as [<- | Hin]; [ cbn;
      try (destruct (py_lower v); cbn); intros [= <- <-] || discriminate;
      cbn; auto 20 | ]).
    contradiction.
Qed.

Lemma ret0_keys (k : string) :
  In k (map op_name operators) -> ret0 !! k = Some [].
Proof.
  cbn. intros H.
  repeat (destruct H as [<- | H]; [vm_compute; reflexivity|]). contradiction.
Qed.

Lemma dict_append_dom (d d' : gmap string (list clause)) (k : string) (c : clause) :
  dict_append d k c = Ok d' -> dom d' = dom d.
Proof.
  unfold dict_append, dict_get. destruct (d !! k) as [l|] eqn:Hk; [|discriminate].
  cbn. intros [= <-]. apply dom_insert_lookup_L. rewrite Hk. eauto.
Qed.

Lemma parse_arg_dom (ret ret' : gmap string (list clause)) (kv : string * value) :
  parse_arg ret kv = Ok ret' -> dom ret' = dom ret.
Proof.
  destruct kv as [key v]. unfold parse_arg.
  destruct (FILTER_PARAM_RE_match key) as [[f ft]|].
  - intros H. apply bind_ok in H as ([k v'] & _ & H).
    eapply dict_append_dom, H.
  - apply dict_append_dom.
Qed.

Lemma parse_args_dom (kwargs : list (string * value))
    (ret ret' : gmap string (list clause)) :
  parse_args ret kwargs = Ok ret' -> dom ret' = dom ret.
Proof.
  revert ret. induction kwargs as [|kv rest IH]; intros ret; cbn.
  - now intros [= <-].
  - intros H. apply bind_ok in H as (r1 & H1 & H2).
    rewrite (IH _ H2). eapply parse_arg_dom, H1.
Qed.

Lemma same_dom_lookup (d1 d2 : gmap string (list clause)) (k : string) :
  dom d1 = dom d2 -> is_Some (d1 !! k) <-> is_Some (d2 !! k).
Proof. intros H. rewrite <- !elem_of_dom, H. reflexivity. Qed.

(** A parsed FilterSpec has a list for each canonical operator and no
    other key. *)
Lemma parsed_has_key (kwargs : list (string * value))
    (F : gmap string (list clause)) (k : string) :
  getFiltersFromArgs kwargs = Ok F ->
  In k (map op_name operators) ->
  exists cs, F !! k = Some cs.
Proof.
  intros HF Hk. apply parse_args_dom in HF.
  apply (same_dom_lookup _ _ k) in HF.
  destruct HF as [_ HF]. destruct HF as [cs Hcs]; [|eauto].
  rewrite (ret0_keys k Hk). eauto.
Qed.

Lemma parsed_no_other_key (kwargs : list (string * value))
    (F : gmap string (list clause)) (k : string) :
  getFiltersFromArgs kwargs = Ok F ->
  ret0 !! k = None ->
  F !! k = None.
Proof.
  intros HF Hk. apply parse_args_dom in HF.
  apply (same_dom_lookup _ _ k) in HF.
  destruct (F !! k) as [cs|] eqn:E; [|reflexivity].
  destruct HF as [HF _]. destruct HF as [x Hx]; [eauto|]. congruence.
Qed.

(** On a dictionary with the sixteen keys, [dict_append] under a
    canonical operator succeeds. *)
Lemma dict_append_ok (d : gmap string (list clause)) (k : string) (c : clause) :
  dom d = dom ret0 -> In k (map op_name operators) ->
  exists l, d !! k = Some l /\ dict_append d k c = Ok (<[k := (l ++ [c])%list]> d).
Proof.
  intros Hd Hk. apply (same_dom_lookup _ _ k) in Hd.
  destruct Hd as [_ Hd]. destruct Hd as [l Hl].
  - rewrite (ret0_keys k Hk). eauto.
  - exists l. split; [assumption|]. unfold dict_append, dict_get. now rewrite Hl.
Qed.

Lemma parse_args_app (pre post : list (string * value))
    (ret : gmap string (list clause)) :
  parse_args ret (pre ++ post)%list
  = do ret' <- parse_args ret pre; parse_args ret' post.
Proof.
  revert ret. induction pre as [|kv pre IH]; intros ret; cbn; [reflexivity|].
  destruct (parse_arg ret kv) as [r1|e]; cbn; [apply IH | reflexivity].
Qed.

End ParserFacts.

(** ** filterAnd against the match conditions *)

Section AndFacts.
Context `{M : PyModel}.

Ltac start_body :=
  intros it f v Hord; unfold clause_holds, well_ordered in *;
  cbn [fst snd is_ordering matches] in *; unfold py_not_in in *;
  destruct (_get_item_value it f) as [x|e]; cbn [bind]; [|exact I].

Ltac case_result t :=
  let b := fresh "b" in destruct t as [b|] ; cbn [bind neg_result negb];
  [destruct b; cbn [negb] | ].

Lemma and_is_ok : and_body_ok OpIs and_is.
Proof. unfold and_is. start_body. destruct (py_is x v); cbn; auto. Qed.

Lemma and_isnot_ok : and_body_ok OpIsnot and_isnot.
Proof. unfold and_isnot. start_body. destruct (py_is x v); cbn; auto. Qed.

Lemma and_in_ok : and_body_ok OpIn and_in.
Proof.
  unfold and_in, py_not_in. start_body. case_result (py_in x v); auto.
Qed.

Lemma and_notin_ok : and_body_ok OpNotin and_notin.
Proof.
  unfold and_notin, py_not_in. start_body. case_result (py_in x v); auto.
Qed.

Lemma and_eq_ok : and_body_ok OpEq and_eq.
Proof.
  unfold and_eq. start_body. rewrite py_ne_eq.
  destruct (py_eq x v); cbn; auto.
Qed.

Lemma and_ieq_ok : and_body_ok OpIeq and_ieq.
Proof.
  unfold and_ieq. start_body. destruct (py_lower x) as [xl|]; [|auto].
  rewrite py_ne_eq. destruct (py_eq xl v); cbn; auto.
Qed.

Lemma and_ne_ok : and_body_ok OpNe and_ne.
Proof.
  unfold and_ne. start_body. rewrite py_ne_eq.
  destruct (py_eq x v); cbn; auto.
Qed.

Lemma and_ine_ok : and_body_ok OpIne and_ine.
Proof.
  unfold and_ine. start_body. destruct (py_lower x) as [xl|]; [|auto].
  rewrite py_ne_eq. destruct (py_eq xl v); cbn; auto.
Qed.

Ltac ordering_cases x v Hord :=
  unfold mutually_ordered, opposite in Hord;
  destruct (py_lt x v) as [[]|], (py_ge x v) as [[]|],
           (py_le x v) as [[]|], (py_gt x v) as [[]|];
  cbn in Hord |- *; auto; discriminate.

Lemma and_lt_ok : and_body_ok OpLt and_lt.
Proof. unfold and_lt. start_body. ordering_cases x v Hord. Qed.

Lemma and_lte_ok : and_body_ok OpLte and_lte.
Proof. unfold and_lte. start_body. ordering_cases x v Hord. Qed.

Lemma and_gt_ok : and_body_ok OpGt and_gt.
Proof. unfold and_gt. start_body. ordering_cases x v Hord. Qed.

Lemma and_gte_ok : and_body_ok OpGte and_gte.
Proof. unfold and_gte. start_body. ordering_cases x v Hord. Qed.

Lemma and_contains_ok : and_body_ok OpContains and_contains.
Proof.
  unfold and_contains, py_not_in. start_body. case_result (py_in v x); auto.
Qed.

Lemma and_notcontains_ok : and_body_ok OpNotcontains and_notcontains.
Proof.
  unfold and_notcontains. start_body. case_result (py_in v x); auto.
Qed.

(** The inner loop finds an element when some element is contained. *)
Lemma any_in_spec (elems : list value) (x : value) (d : bool) :
  any_in elems x = Ok d ->
  d = existsb (fun e => is_true (py_in e x)) elems.
Proof.
  induction elems as [|e es IH]; cbn.
  - now intros [= <-].
  - destruct (py_in e x) as [[]|]; cbn; [now intros [= <-] | exact IH | discriminate].
Qed.

Lemma didContain_spec (v x : value) (d : bool) :
  didContain v x = Ok d -> contains_any x v = Ok d.
Proof.
  unfold didContain, contains_any. destruct (py_iter v) as [elems|]; cbn; [|discriminate].
  intros H. now rewrite (any_in_spec _ _ _ H).
Qed.

Lemma and_containsAny_ok : and_body_ok OpContainsAny and_containsAny.
Proof.
  unfold and_containsAny. start_body.
  destruct (didContain v x) as [d|] eqn:Hd; cbn; [|exact I].
  apply didContain_spec in Hd. rewrite Hd. destruct d; cbn; auto.
Qed.

(** The last loop of [filterAnd] never gets past the name [Value]. *)
Lemma and_notcontainsAny_raises (it : item) (f : string) (v : value) :
  exists e, and_notcontainsAny it f v = Raise e.
Proof.
  unfold and_notcontainsAny, name_Value.
  destruct (_get_item_value it f); cbn; eauto.
Qed.

Lemma and_notcontainsAny_ok : and_body_ok OpNotcontainsAny and_notcontainsAny.
Proof.
  intros it f v _. destruct (and_notcontainsAny_raises it f v) as [e ->]. exact I.
Qed.

Lemma and_stages_ok :
  Forall2 (fun op st => fst st = op_name op /\ and_body_ok op (snd st))
          operators and_stages.
Proof.
  unfold operators, and_stages.
  repeat (constructor; [split; [reflexivity|cbn [snd]] | ]); try constructor;
    auto using and_is_ok, and_isnot_ok, and_in_ok, and_notin_ok, and_eq_ok,
      and_ieq_ok, and_ne_ok, and_ine_ok, and_lt_ok, and_lte_ok, and_gt_ok,
      and_gte_ok, and_contains_ok, and_notcontains_ok, and_containsAny_ok,
      and_notcontainsAny_ok.
Qed.

(** One loop of [filterAnd] leaves [keepIt] true exactly when every
    clause of the list holds. *)
Lemma for_clauses_and (op : operator) (body : item -> string -> value -> result ctl)
    (it : item) (cs : list clause) (k : bool) :
  and_body_ok op body ->
  forallb (well_ordered op it) cs = true ->
  for_clauses (body it) cs true = Ok k ->
  k = forallb (satisfied op it) cs.
Proof.
  intros Hbody. induction cs as [|[f v] cs IH]; cbn [for_clauses forallb].
  - now intros _ [= <-].
  - intros Hord Hrun. apply andb_true_iff in Hord as [Ho1 Ho2].
    specialize (Hbody it f v Ho1). unfold satisfied.
    destruct (body it f v) as [[|b]|]; cbn [bind] in Hrun; [| |discriminate].
    + rewrite Hbody. cbn. auto.
    + destruct Hbody as [-> ->]. cbn. now injection Hrun as <-.
Qed.

Lemma dict_get_clauses_for (F : gmap string (list clause)) (k : string)
    (cs : list clause) :
  dict_get F k = Ok cs -> clauses_for F k = cs.
Proof.
  unfold dict_get, clauses_for. destruct (F !! k); [|discriminate].
  now intros [= <-].
Qed.

Lemma and_from_spec (ops : list operator)
    (stages : list (string * (item -> string -> value -> result ctl)))
    (F : gmap string (list clause)) (it : item) (b : bool) :
  Forall2 (fun op st => fst st = op_name op /\ and_body_ok op (snd st)) ops stages ->
  forallb (fun op => forallb (well_ordered op it) (clauses_for F (op_name op))) ops = true ->
  and_from stages F it true = Ok b ->
  b = forallb (fun op => forallb (satisfied op it) (clauses_for F (op_name op))) ops.
Proof.
  intros Hst. revert b. induction Hst as [|op [k body] ops stages [Hk Hbody] _ IH];
    intros b; cbn [and_from forallb].
  - now intros _ [= <-].
  - cbn [fst snd] in Hk, Hbody. subst k. intros Hord Hrun.
    apply andb_true_iff in Hord as [Ho1 Ho2].
    apply bind_ok in Hrun as (cs & Hcs & Hrun).
    apply dict_get_clauses_for in Hcs. rewrite Hcs in *.
    apply bind_ok in Hrun as (k' & Hk' & Hrun).
    apply (for_clauses_and op body it cs k' Hbody Ho1) in Hk'.
    rewrite <- Hk'. destruct k'; cbn [negb andb] in *.
    + now apply IH.
    + now injection Hrun as <-.
Qed.

Lemma forallb_flat_map {A B : Type} (p : B -> bool) (g : A -> list B) (l : list A) :
  forallb p (flat_map g l) = forallb (fun a => forallb p (g a)) l.
Proof.
  induction l as [|a l IH]; cbn; [reflexivity|].
  now rewrite forallb_app, IH.
Qed.

Lemma forallb_map {A B : Type} (p : B -> bool) (g : A -> B) (l : list A) :
  forallb p (map g l) = forallb (fun a => p (g a)) l.
Proof. induction l as [|a l IH]; cbn; [reflexivity | now rewrite IH]. Qed.

Lemma forallb_ext {A : Type} (p q : A -> bool) (l : list A) :
  (forall a, p a = q a) -> forallb p l = forallb q l.
Proof.
  intros H. induction l as [|a l IH]; cbn; [reflexivity | now rewrite H, IH].
Qed.

Lemma satisfies_all_by_operator (F : gmap string (list clause)) (it : item) :
  satisfies_all F it
  = forallb (fun op => forallb (satisfied op it) (clauses_for F (op_name op))) operators.
Proof.
  unfold satisfies_all, clauses_of. rewrite forallb_flat_map.
  apply forallb_ext. intros op. now rewrite forallb_map.
Qed.

Lemma well_ordered_by_operator (F : gmap string (list clause)) (it : item) :
  forallb (fun oc => well_ordered (fst oc) it (snd oc)) (clauses_of F)
  = forallb (fun op => forallb (well_ordered op it) (clauses_for F (op_name op))) operators.
Proof.
  unfold clauses_of. rewrite forallb_flat_map.
  apply forallb_ext. intros op. now rewrite forallb_map.
Qed.

(** The body of [for item in self]: when it ends without raising, the
    item is appended exactly when it satisfies every clause. *)
Lemma and_item_spec (F : gmap string (list clause)) (it : item) (b : bool) :
  forallb (fun oc => well_ordered (fst oc) it (snd oc)) (clauses_of F) = true ->
  and_item F it = Ok b ->
  b = satisfies_all F it.
Proof.
  rewrite well_ordered_by_operator, satisfies_all_by_operator.
  apply and_from_spec, and_stages_ok.
Qed.

(** [for item in self] keeps, in order, the items for which the body
    appends, and evaluates the body on every item. *)
Lemma and_loop_spec (F : gmap string (list clause)) (items ret res : list item) :
  and_loop F items ret = Ok res ->
  res = (ret ++ List.filter (fun it => is_true (and_item F it)) items)%list
  /\ Forall (fun it => exists b, and_item F it = Ok b) items.
Proof.
  revert ret. induction items as [|it items IH]; intros ret; cbn [and_loop List.filter].
  - intros [= <-]. now rewrite app_nil_r.
  - intros H. apply bind_ok in H as (keep & Hk & H).
    apply IH in H as [-> Hall]. rewrite Hk. split; [|constructor; eauto].
    destruct keep; cbn [is_true]; [now rewrite <- app_assoc | reflexivity].
Qed.

Lemma and_loop_all_kept (F : gmap string (list clause)) (items ret : list item) :
  Forall (fun it => and_item F it = Ok true) items ->
  and_loop F items ret = Ok (ret ++ items)%list.
Proof.
  intros H. revert ret. induction H as [|it items Hit _ IH]; intros ret; cbn [and_loop].
  - now rewrite app_nil_r.
  - rewrite Hit. cbn [bind]. rewrite IH, <- app_assoc. reflexivity.
Qed.

Lemma filterAnd_unfold (R : list item) (kwargs : list (string * value))
    (F : gmap string (list clause)) :
  getFiltersFromArgs kwargs = Ok F ->
  filterAnd R kwargs = and_loop F R [].
Proof. intros H. unfold filterAnd. now rewrite H. Qed.

Lemma filter_sublist {A : Type} (p : A -> bool) (l : list A) :
  sublist (List.filter p l) l.
Proof.
  induction l as [|a l IH]; cbn; [constructor|].
  destruct (p a); [apply sublist_skip | apply sublist_cons]; exact IH.
Qed.

End AndFacts.

(** ** filterAnd: subsequence, match conditions, idempotence *)

Section AndClaims.
Context `{M : PyModel}.

Lemma is_true_ok (m : result bool) : is_true m = true <-> m = Ok true.
Proof. destruct m as [[]|]; cbn; split; congruence. Qed.

(** C1, amended. When the arguments parse to the FilterSpec [F] and
    [filterAnd] returns [res] on the records [R], [res] is a
    subsequence of [R] in the order of [R]. When moreover the ordering
    clauses of [F] compare mutually ordered values on the records of
    [R] ([x >= v] is the negation of [x < v], and [x > v] that of
    [x <= v]), [res] is [R] filtered by "satisfies every clause of
    [F]": a record of [R] is in [res] exactly when each clause of [F]
    holds on it under the match condition of its operator. *)
Theorem filterAnd_subsequence_of_satisfying
    (R : list item) (kwargs : list (string * value))
    (F : gmap string (list clause)) (res : list item) :
  getFiltersFromArgs kwargs = Ok F ->
  filterAnd R kwargs = Ok res ->
  sublist res R
  /\ (ordering_ok F R = true ->
      res = List.filter (satisfies_all F) R
      /\ (forall it, In it res <->
            In it R /\
            forall op c, In (op, c) (clauses_of F) -> clause_holds op it c = Ok true)).
Proof.
  intros HF Hrun. rewrite (filterAnd_unfold R kwargs F HF) in Hrun.
  apply and_loop_spec in Hrun as [Hres Hall]. cbn [app] in Hres.
  split; [rewrite Hres; apply filter_sublist|]. intros Hord.
  assert (Heq : res = List.filter (satisfies_all F) R).
  { rewrite Hres. apply filter_ext_in. intros it Hit.
    rewrite Forall_forall in Hall. destruct (Hall it) as [b Hb].
    { now apply list_elem_of_In. }
    rewrite Hb. cbn [is_true]. unfold ordering_ok in Hord.
    rewrite forallb_forall in Hord. specialize (Hord it Hit).
    rewrite <- (and_item_spec F it b Hord Hb). now destruct b. }
  split; [exact Heq|].
  intros it. rewrite Heq, filter_In. unfold satisfies_all.
  rewrite forallb_forall. split; intros [Hin Hsat]; (split; [exact Hin|]).
  - intros op c Hc. apply is_true_ok. exact (Hsat (op, c) Hc).
  - intros [op c] Hc. apply is_true_ok. exact (Hsat op c Hc).
Qed.

(** C9. Idempotence: when [filterAnd] returns [res] on [R], it returns
    [res] again on [res] with the same arguments. *)
Theorem filterAnd_idempotent
    (R : list item) (kwargs : list (string * value)) (res : list item) :
  filterAnd R kwargs = Ok res ->
  filterAnd res kwargs = Ok res.
Proof.
  unfold filterAnd. destruct (getFiltersFromArgs kwargs) as [F|]; cbn [bind];
    [|discriminate].
  intros Hrun. apply and_loop_spec in Hrun as [Hres _]. cbn [app] in Hres.
  rewrite (and_loop_all_kept F res []); [reflexivity|].
  rewrite Hres. apply Forall_forall. intros it Hit.
  apply list_elem_of_In, filter_In in Hit as [_ Hit]. now apply is_true_ok.
Qed.

(** C10. Without filter arguments [filterAnd] returns the records of
    [R], all of them and in order, and [filterOr] returns the empty
    sequence. Both build the result in the new list [ret]; [R] itself is
    only iterated over. *)
Theorem no_filters_all_or_nothing (R : list item) :
  filterAnd R [] = Ok R /\ filterOr R [] = Ok [].
Proof.
  unfold filterAnd, filterOr, getFiltersFromArgs. cbn [parse_args bind].
  split.
  - rewrite (and_loop_all_kept ret0 R []); [reflexivity|].
    apply Forall_forall. intros it _. vm_compute. reflexivity.
  - assert (H : forall ret, or_loop ret0 R ret = Ok ret).
    { induction R as [|it R' IH]; intros ret; cbn [or_loop]; [reflexivity|].
      assert (Hit : or_item ret0 it = Ok false) by (vm_compute; reflexivity).
      rewrite Hit. cbn [bind]. apply IH. }
    apply H.
Qed.

End AndClaims.

(** ** The parser: operators, isnull, case-insensitive values *)

Section ParserClaims.
Context `{M : PyModel}.

Lemma parse_args_ok_dom (pre : list (string * value))
    (ret : gmap string (list clause)) :
  parse_args ret0 pre = Ok ret -> dom ret = dom ret0.
Proof. apply parse_args_dom. Qed.

(** The parser stops at the first argument that raises. *)
Lemma parse_stops (pre post : list (string * value)) (kv : string * value)
    (ret : gmap string (list clause)) (e : exn) :
  parse_args ret0 pre = Ok ret ->
  parse_arg ret kv = Raise e ->
  getFiltersFromArgs (pre ++ kv :: post) = Raise e.
Proof.
  intros Hpre Hkv. unfold getFiltersFromArgs.
  rewrite parse_args_app, Hpre. cbn. now rewrite Hkv.
Qed.

(** The last argument is parsed on what the arguments before it left. *)
Lemma parse_last (pre : list (string * value)) (kv : string * value)
    (ret : gmap string (list clause)) :
  parse_args ret0 pre = Ok ret ->
  getFiltersFromArgs (pre ++ [kv]) = parse_arg ret kv.
Proof.
  intros Hpre. unfold getFiltersFromArgs. rewrite parse_args_app, Hpre. cbn.
  now destruct (parse_arg ret kv).
Qed.

(** The two filter functions raise what the parser raises. *)
Lemma filters_raise (R : list item) (kwargs : list (string * value)) (e : exn) :
  getFiltersFromArgs kwargs = Raise e ->
  filterAnd R kwargs = Raise e /\ filterOr R kwargs = Raise e.
Proof. intros H. unfold filterAnd, filterOr. now rewrite H. Qed.

(** C8. An argument whose key splits into [field__filterType] with a
    filter type outside [FILTER_TYPES] makes the parser, and with it
    [filterAnd] and [filterOr], raise [ValueError] as soon as the loop
    reaches it; the message holds the filter type as it stands in the
    key, followed by the valid choices. *)
Theorem unknown_filter_type_raises
    (key field ft : string) (v : value) (pre post : list (string * value))
    (ret : gmap string (list clause)) (R : list item) :
  FILTER_PARAM_RE_match key = Some (field, ft) ->
  in_FILTER_TYPES ft = false ->
  parse_args ret0 pre = Ok ret ->
  let e := ValueError ("Unknown filter type: " +:+ ft +:+ ". Choices are: ("
                       +:+ join ", " FILTER_TYPES +:+ ")") in
  (key = field +:+ "__" +:+ ft \/ key = field +:+ "__" +:+ ft +:+ nl)
  /\ getFiltersFromArgs (pre ++ (key, v) :: post) = Raise e
  /\ filterAnd R (pre ++ (key, v) :: post) = Raise e
  /\ filterOr R (pre ++ (key, v) :: post) = Raise e.
Proof.
  intros Hm Hft Hpre e.
  split; [apply (FILTER_PARAM_RE_match_sound key field ft Hm)|].
  assert (H : getFiltersFromArgs (pre ++ (key, v) :: post) = Raise e).
  { apply (parse_stops pre post (key, v) ret e Hpre).
    unfold parse_arg. rewrite Hm. unfold normalize. rewrite Hft. reflexivity. }
  split; [exact H|]. now apply filters_raise.
Qed.

(** C5, amended. A key that [FILTER_PARAM_RE] does not split is taken
    whole as the field of an [eq] clause, and the parser does not fail
    on it. A key that splits always loses its suffix, and when the
    suffix is not in [FILTER_TYPES] the parser raises [ValueError]
    instead of falling back to [eq]. *)
Theorem unsplit_key_is_eq_field
    (key : string) (v : value) (pre : list (string * value))
    (ret : gmap string (list clause)) :
  parse_args ret0 pre = Ok ret ->
  match FILTER_PARAM_RE_match key with
  | None =>
      exists l, ret !! "eq" = Some l /\
        getFiltersFromArgs (pre ++ [(key, v)])
        = Ok (<["eq" := (l ++ [(key, v)])%list]> ret)
  | Some (field, ft) =>
      in_FILTER_TYPES ft = false ->
      forall post,
        getFiltersFromArgs (pre ++ (key, v) :: post)
        = Raise (ValueError (unknown_filter_msg ft))
  end.
Proof.
  intros Hpre. destruct (FILTER_PARAM_RE_match key) as [[field ft]|] eqn:Hm.
  - intros Hft post. apply (parse_stops pre post (key, v) ret _ Hpre).
    unfold parse_arg. rewrite Hm. unfold normalize. rewrite Hft. reflexivity.
  - destruct (dict_append_ok ret "eq" (key, v)) as (l & Hl & Happ).
    + now apply parse_args_ok_dom in Hpre.
    + cbn. auto 10.
    + exists l. split; [exact Hl|]. unfold getFiltersFromArgs.
      rewrite parse_args_app, Hpre. cbn. now rewrite Hm, Happ.
Qed.

(** C6, amended. For an [ieq] or [ine] argument the parser records the
    lower-cased value when the value can be lower-cased; when [lower]
    raises, the parser raises the same and records nothing. *)
Theorem ieq_ine_value_lowered_or_raises
    (key field ft : string) (v : value) (pre : list (string * value))
    (ret : gmap string (list clause)) :
  FILTER_PARAM_RE_match key = Some (field, ft) ->
  ft = "ieq" \/ ft = "ine" ->
  parse_args ret0 pre = Ok ret ->
  match py_lower v with
  | Ok low =>
      exists l, ret !! ft = Some l /\
        getFiltersFromArgs (pre ++ [(key, v)])
        = Ok (<[ft := (l ++ [(field, low)])%list]> ret)
  | Raise e =>
      forall post, getFiltersFromArgs (pre ++ (key, v) :: post) = Raise e
  end.
Proof.
  intros Hm Hft Hpre.
  assert (Hn : normalize ft v = do low <- py_lower v; Ok (ft, low)).
  { destruct Hft as [-> | ->]; reflexivity. }
  destruct (py_lower v) as [low|e] eqn:Hlow.
  - destruct (dict_append_ok ret ft (field, low)) as (l & Hl & Happ).
    + now apply parse_args_ok_dom in Hpre.
    + destruct Hft as [-> | ->]; cbn; auto 10.
    + exists l. split; [exact Hl|]. unfold getFiltersFromArgs.
      rewrite parse_args_app, Hpre. cbn. rewrite Hm, Hn. cbn. now rewrite Happ.
  - intros post. apply (parse_stops pre post (key, v) ret e Hpre).
    unfold parse_arg. now rewrite Hm, Hn.
Qed.

(** The parser treats [field__isnull=True] as [field__is=None] and
    [field__isnull=False] as [field__isnot=None]. *)
Lemma parse_arg_isnull_True (key key_is field : string)
    (ret : gmap string (list clause)) :
  FILTER_PARAM_RE_match key = Some (field, "isnull") ->
  FILTER_PARAM_RE_match key_is = Some (field, "is") ->
  parse_arg ret (key, VTrue) = parse_arg ret (key_is, VNone).
Proof.
  intros H1 H2. unfold parse_arg. rewrite H1, H2. unfold normalize. cbn.
  now rewrite type_is_bool_True, py_is_True_True.
Qed.

Lemma parse_arg_isnull_False (key key_isnot field : string)
    (ret : gmap string (list clause)) :
  FILTER_PARAM_RE_match key = Some (field, "isnull") ->
  FILTER_PARAM_RE_match key_isnot = Some (field, "isnot") ->
  parse_arg ret (key, VFalse) = parse_arg ret (key_isnot, VNone).
Proof.
  intros H1 H2. unfold parse_arg. rewrite H1, H2. unfold normalize. cbn.
  now rewrite type_is_bool_False, py_is_False_True.
Qed.

Lemma parse_args_replace (pre post : list (string * value))
    (kv kv' : string * value) :
  (forall ret, parse_arg ret kv = parse_arg ret kv') ->
  getFiltersFromArgs (pre ++ kv :: post) = getFiltersFromArgs (pre ++ kv' :: post).
Proof.
  intros H. unfold getFiltersFromArgs. rewrite !parse_args_app.
  destruct (parse_args ret0 pre) as [ret|]; cbn; [|reflexivity]. now rewrite H.
Qed.

Lemma same_filters_same_results (R : list item) (kw kw' : list (string * value)) :
  getFiltersFromArgs kw = getFiltersFromArgs kw' ->
  filterAnd R kw = filterAnd R kw' /\ filterOr R kw = filterOr R kw'.
Proof. intros H. unfold filterAnd, filterOr. now rewrite H. Qed.

(** C7. For a key [field__isnull]: the argument raises the [ValueError]
    of [isnull] exactly when its value is not of type [bool]; [True] is
    recorded as the clause [(field, None)] under [is], [False] as
    [(field, None)] under [isnot]; no parsed FilterSpec has a key
    [isnull]; and in any argument list [field__isnull=True] can be
    replaced by [field__is=None], and [field__isnull=False] by
    [field__isnot=None], without changing the FilterSpec nor what
    [filterAnd] and [filterOr] return. *)
Theorem isnull_becomes_is_or_isnot
    (key key_is key_isnot field : string) :
  FILTER_PARAM_RE_match key = Some (field, "isnull") ->
  FILTER_PARAM_RE_match key_is = Some (field, "is") ->
  FILTER_PARAM_RE_match key_isnot = Some (field, "isnot") ->
  (forall pre ret v, parse_args ret0 pre = Ok ret ->
     (getFiltersFromArgs (pre ++ [(key, v)]) = Raise (ValueError isnull_msg)
      <-> type_is_bool v = false)
     /\ (type_is_bool v = true ->
         exists F, getFiltersFromArgs (pre ++ [(key, v)]) = Ok F))
  /\ (forall pre ret, parse_args ret0 pre = Ok ret ->
        (exists l, ret !! "is" = Some l /\
           getFiltersFromArgs (pre ++ [(key, VTrue)])
           = Ok (<["is" := (l ++ [(field, VNone)])%list]> ret))
        /\ (exists l, ret !! "isnot" = Some l /\
              getFiltersFromArgs (pre ++ [(key, VFalse)])
              = Ok (<["isnot" := (l ++ [(field, VNone)])%list]> ret)))
  /\ (forall kwargs F, getFiltersFromArgs kwargs = Ok F -> F !! "isnull" = None)
  /\ (forall pre post R,
        getFiltersFromArgs (pre ++ (key, VTrue) :: post)
          = getFiltersFromArgs (pre ++ (key_is, VNone) :: post)
        /\ filterAnd R (pre ++ (key, VTrue) :: post)
           = filterAnd R (pre ++ (key_is, VNone) :: post)
        /\ filterOr R (pre ++ (key, VTrue) :: post)
           = filterOr R (pre ++ (key_is, VNone) :: post))
  /\ (forall pre post R,
        getFiltersFromArgs (pre ++ (key, VFalse) :: post)
          = getFiltersFromArgs (pre ++ (key_isnot, VNone) :: post)
        /\ filterAnd R (pre ++ (key, VFalse) :: post)
           = filterAnd R (pre ++ (key_isnot, VNone) :: post)
        /\ filterOr R (pre ++ (key, VFalse) :: post)
           = filterOr R (pre ++ (key_isnot, VNone) :: post)).
Proof.
  intros Hm His Hisnot.
  assert (Hstep : forall ret v, dom ret = dom ret0 ->
            parse_arg ret (key, v)
            = if negb (type_is_bool v) then Raise (ValueError isnull_msg)
              else if py_is v VTrue
                   then dict_append ret "is" (field, VNone)
                   else dict_append ret "isnot" (field, VNone)).
  { intros ret v _. unfold parse_arg. rewrite Hm. unfold normalize. cbn.
    destruct (type_is_bool v); cbn; [|reflexivity].
    destruct (py_is v VTrue); reflexivity. }
  assert (Happ_is : forall ret, dom ret = dom ret0 ->
            exists l, ret !! "is" = Some l /\
              dict_append ret "is" (field, VNone)
              = Ok (<["is" := (l ++ [(field, VNone)])%list]> ret)).
  { intros ret Hd. apply dict_append_ok; [exact Hd | cbn; auto 20]. }
  assert (Happ_isnot : forall ret, dom ret = dom ret0 ->
            exists l, ret !! "isnot" = Some l /\
              dict_append ret "isnot" (field, VNone)
              = Ok (<["isnot" := (l ++ [(field, VNone)])%list]> ret)).
  { intros ret Hd. apply dict_append_ok; [exact Hd | cbn; auto 20]. }
  split; [|split; [|split; [|split]]].
  - intros pre ret v Hpre. rewrite (parse_last pre (key, v) ret Hpre).
    apply parse_args_ok_dom in Hpre. rewrite (Hstep ret v Hpre).
    destruct (Happ_is ret Hpre) as (l1 & _ & H1).
    destruct (Happ_isnot ret Hpre) as (l2 & _ & H2).
    destruct (type_is_bool v); cbn [negb].
    + rewrite H1, H2. split; [split; [|discriminate]|].
      * destruct (py_is v VTrue); discriminate.
      * intros _. destruct (py_is v VTrue); eauto.
    + split; [split; reflexivity | discriminate].
  - intros pre ret Hpre. rewrite !(parse_last pre _ ret Hpre).
    apply parse_args_ok_dom in Hpre. rewrite !(Hstep ret _ Hpre).
    rewrite type_is_bool_True, type_is_bool_False, py_is_True_True, py_is_False_True.
    cbn [negb]. split; [apply Happ_is | apply Happ_isnot]; exact Hpre.
  - intros kwargs F HF. apply (parsed_no_other_key kwargs F "isnull" HF).
    vm_compute. reflexivity.
  - intros pre post R.
    assert (H : getFiltersFromArgs (pre ++ (key, VTrue) :: post)
                = getFiltersFromArgs (pre ++ (key_is, VNone) :: post)).
    { apply parse_args_replace. intros ret.
      now apply (parse_arg_isnull_True key key_is field). }
    split; [exact H|]. now apply same_filters_same_results.
  - intros pre post R.
    assert (H : getFiltersFromArgs (pre ++ (key, VFalse) :: post)
                = getFiltersFromArgs (pre ++ (key_isnot, VNone) :: post)).
    { apply parse_args_replace. intros ret.
      now apply (parse_arg_isnull_False key key_isnot field). }
    split; [exact H|]. now apply same_filters_same_results.
Qed.

End ParserClaims.

(** ** The functions on dictionaries of built-in values *)

Import Dicts.

(** C1, as stated, fails on sets: [{1} < {2}] is false, so the loop
    over the [gte] clauses keeps the record, and [{1} >= {2}] is false
    too, so the record does not satisfy the clause. *)
Lemma filterAnd_keeps_record_failing_gte :
  getFiltersFromArgs kw_gte_set = Ok F_gte_set
  /\ filterAnd [rec_set] kw_gte_set = Ok [rec_set]
  /\ In (OpGte, ("a", PSet 2 [PInt 2])) (clauses_of F_gte_set)
  /\ clause_holds OpGte rec_set ("a", PSet 2 [PInt 2]) = Ok false
  /\ [rec_set] <> List.filter (satisfies_all F_gte_set) [rec_set].
Proof.
  split; [vm_compute; reflexivity|]. split; [vm_compute; reflexivity|].
  split; [vm_compute; auto 20|]. split; [vm_compute; reflexivity|].
  assert (H : List.filter (satisfies_all F_gte_set) [rec_set] = [])
    by (vm_compute; reflexivity).
  rewrite H. discriminate.
Qed.

(** C1, amended, on the three records: [age__gte=30, name__ine="tom"]. *)
Lemma filterAnd_subsequence_of_satisfying_witness :
  getFiltersFromArgs kw_gte_ine = Ok F_gte_ine
  /\ filterAnd [tom; amy; sam] kw_gte_ine = Ok [sam]
  /\ ordering_ok F_gte_ine [tom; amy; sam] = true
  /\ sublist [sam] [tom; amy; sam]
  /\ [sam] = List.filter (satisfies_all F_gte_ine) [tom; amy; sam].
Proof.
  assert (H1 : getFiltersFromArgs kw_gte_ine = Ok F_gte_ine)
    by (vm_compute; reflexivity).
  assert (H2 : filterAnd [tom; amy; sam] kw_gte_ine = Ok [sam])
    by (vm_compute; reflexivity).
  assert (H3 : ordering_ok F_gte_ine [tom; amy; sam] = true)
    by (vm_compute; reflexivity).
  destruct (filterAnd_subsequence_of_satisfying (M := dict_model)
              [tom; amy; sam] kw_gte_ine F_gte_ine [sam] H1 H2) as (H4 & H).
  destruct (H H3) as (H5 & _).
  repeat split; assumption.
Defined.

(** C9, on the scenario of the specification: [age__eq=30,
    name__ine="tom"] keeps Sam, and keeps Sam again. *)
Lemma filterAnd_idempotent_witness :
  filterAnd [tom; amy; sam] kw_eq_ine = Ok [sam]
  /\ filterAnd [sam] kw_eq_ine = Ok [sam].
Proof.
  assert (H : filterAnd [tom; amy; sam] kw_eq_ine = Ok [sam])
    by (vm_compute; reflexivity).
  split; [exact H|].
  exact (filterAnd_idempotent (M := dict_model) [tom; amy; sam] kw_eq_ine [sam] H).
Defined.

(** C8, on [age__between=[1,2]]. *)
Lemma unknown_filter_type_raises_witness :
  FILTER_PARAM_RE_match "age__between" = Some ("age", "between")
  /\ in_FILTER_TYPES "between" = false
  /\ filterAnd [tom] [("age__between", PList 1 [PInt 1; PInt 2])]
     = Raise (ValueError ("Unknown filter type: between. Choices are: ("
                          +:+ join ", " FILTER_TYPES +:+ ")")).
Proof.
  assert (H1 : FILTER_PARAM_RE_match "age__between" = Some ("age", "between"))
    by reflexivity.
  assert (H2 : in_FILTER_TYPES "between" = false) by reflexivity.
  assert (H3 : parse_args ret0 [] = Ok ret0) by reflexivity.
  destruct (unknown_filter_type_raises (M := dict_model) "age__between" "age" "between"
              (PList 1 [PInt 1; PInt 2]) [] [] ret0 [tom] H1 H2 H3)
    as (_ & _ & H & _).
  repeat split; assumption.
Defined.

(** C5: [age__between] is not taken as a field name; the parser raises. *)
Lemma unknown_suffix_is_not_a_field_name :
  in_FILTER_TYPES "between" = false
  /\ getFiltersFromArgs [("age__between", PInt 1)]
     = Raise (ValueError (unknown_filter_msg "between"))
  /\ getFiltersFromArgs [("age__between", PInt 1)]
     <> Ok (<["eq" := [("age__between", PInt 1)]]> ret0).
Proof.
  split; [reflexivity|].
  assert (H : getFiltersFromArgs [("age__between", PInt 1)]
              = Raise (ValueError (unknown_filter_msg "between")))
    by (vm_compute; reflexivity).
  split; [exact H|]. rewrite H. discriminate.
Qed.

(** C5, amended, on [age__], which does not split, and on
    [age__between], which does. *)
Lemma unsplit_key_is_eq_field_witness :
  (exists l, ret0 !! "eq" = Some l /\
     getFiltersFromArgs [("age__", PInt 1)]
     = Ok (<["eq" := (l ++ [("age__", PInt 1)])%list]> ret0))
  /\ (in_FILTER_TYPES "between" = false ->
      forall post,
        getFiltersFromArgs (("age__between", PInt 1) :: post)
        = Raise (ValueError (unknown_filter_msg "between"))).
Proof.
  assert (H : parse_args ret0 [] = Ok ret0) by reflexivity.
  split.
  - exact (unsplit_key_is_eq_field (M := dict_model) "age__" (PInt 1) [] ret0 H).
  - exact (unsplit_key_is_eq_field (M := dict_model) "age__between" (PInt 1) [] ret0 H).
Defined.

(** C6: [a__ieq=5] is not kept as it is; the parser raises. *)
Lemma ieq_of_a_number_raises :
  getFiltersFromArgs [("a__ieq", PInt 5)] = Raise AttributeError
  /\ getFiltersFromArgs [("a__ieq", PInt 5)]
     <> Ok (<["ieq" := [("a", PInt 5)]]> ret0)
  /\ getFiltersFromArgs [("a__ine", PInt 5)] = Raise AttributeError.
Proof.
  assert (H : getFiltersFromArgs [("a__ieq", PInt 5)] = Raise AttributeError)
    by (vm_compute; reflexivity).
  split; [exact H|]. split; [rewrite H; discriminate|].
  vm_compute. reflexivity.
Qed.

(** C6, amended, on [name__ieq="ToM"] and on [name__ine=5]. *)
Lemma ieq_ine_value_lowered_or_raises_witness :
  (exists l, ret0 !! "ieq" = Some l /\
     getFiltersFromArgs [("name__ieq", PStr "ToM")]
     = Ok (<["ieq" := (l ++ [("name", PStr "tom")])%list]> ret0))
  /\ (forall post,
        getFiltersFromArgs (("name__ine", PInt 5) :: post) = Raise AttributeError).
Proof.
  assert (H : parse_args ret0 [] = Ok ret0) by reflexivity.
  split.
  - exact (ieq_ine_value_lowered_or_raises (M := dict_model) "name__ieq" "name" "ieq"
             (PStr "ToM") [] ret0 eq_refl (or_introl eq_refl) H).
  - exact (ieq_ine_value_lowered_or_raises (M := dict_model) "name__ine" "name" "ine"
             (PInt 5) [] ret0 eq_refl (or_intror eq_refl) H).
Defined.

(** C7, on the field [age]. *)
Lemma isnull_becomes_is_or_isnot_witness :
  FILTER_PARAM_RE_match "age__isnull" = Some ("age", "isnull")
  /\ FILTER_PARAM_RE_match "age__is" = Some ("age", "is")
  /\ FILTER_PARAM_RE_match "age__isnot" = Some ("age", "isnot")
  /\ (getFiltersFromArgs [("age__isnull", PInt 1)] = Raise (ValueError isnull_msg)
      <-> p_type_is_bool (PInt 1) = false)
  /\ filterAnd [tom; nobody] [("age__isnull", PBool true)]
     = filterAnd [tom; nobody] [("age__is", PNone)]
  /\ filterAnd [tom; nobody] [("age__isnull", PBool false)]
     = filterAnd [tom; nobody] [("age__isnot", PNone)].
Proof.
  destruct (isnull_becomes_is_or_isnot (M := dict_model) "age__isnull" "age__is" "age__isnot" "age"
              eq_refl eq_refl eq_refl) as (H1 & _ & _ & H4 & H5).
  split; [reflexivity|]. split; [reflexivity|]. split; [reflexivity|].
  split; [exact (proj1 (H1 [] ret0 (PInt 1) eq_refl))|].
  split.
  - exact (proj1 (proj2 (H4 [] [] [tom; nobody]))).
  - exact (proj1 (proj2 (H5 [] [] [tom; nobody]))).
Defined.

Example isnull_filters :
  filterAnd [tom; nobody] [("age__isnull", PBool true)] = Ok [nobody]
  /\ filterAnd [tom; nobody] [("age__isnull", PBool false)] = Ok [tom]
  /\ filterOr [tom; nobody] [("age__isnull", PBool true)] = Ok [nobody].
Proof. repeat split; vm_compute; reflexivity. Qed.

(** C2. With one [notcontainsAny] clause that the record satisfies, no
    element of ["q"] being contained in ["xyz"], both functions raise
    [NameError] instead of returning the record. *)
Theorem notcontainsAny_raises_NameError :
  clause_holds OpNotcontainsAny rec_xyz ("a", PList 1 [PStr "q"]) = Ok true
  /\ filterAnd [rec_xyz] [("a__notcontainsAny", PList 1 [PStr "q"])]
     = Raise (NameError "Value")
  /\ filterOr [rec_xyz] [("a__notcontainsAny", PList 1 [PStr "q"])]
     = Raise (NameError "Value").
Proof. repeat split; vm_compute; reflexivity. Qed.

(** C3. The record satisfies the clause [b__ieq="foo"], and [filterOr]
    returns it for that clause alone; after [a__ieq="x"], whose field
    value 5 cannot be lower-cased, the loop over the [ieq] clauses is
    left and the record is dropped. *)
Theorem filterOr_ieq_break_drops_record :
  clause_holds OpIeq rec_5_Foo ("b", PStr "foo") = Ok true
  /\ filterOr [rec_5_Foo] [("b__ieq", PStr "foo")] = Ok [rec_5_Foo]
  /\ filterOr [rec_5_Foo] [("a__ieq", PStr "x"); ("b__ieq", PStr "foo")] = Ok [].
Proof. repeat split; vm_compute; reflexivity. Qed.

(** C4. With the single clause [a__ine="tom"] and a record whose field
    [a] is the number 5, [filterAnd] keeps the record and [filterOr]
    drops it. *)
Theorem single_ine_clause_and_or_differ :
  filterAnd [rec_5] [("a__ine", PStr "tom")] = Ok [rec_5]
  /\ filterOr [rec_5] [("a__ine", PStr "tom")] = Ok [].
Proof. split; vm_compute; reflexivity. Qed.

(** * Further properties *)

(** ** FILTER_PARAM_RE: what a match is, and which split it takes *)

Lemma match_filterType_cons2 (c c1 c2 : ascii) (r : string) :
  match_filterType (String c (String c1 (String c2 r)))
  = if dot c then option_map (String c) (match_filterType (String c1 (String c2 r)))
    else None.
Proof. reflexivity. Qed.

Lemma match_filterType_nl (t : string) :
  t <> "" -> all_dot t = true -> match_filterType (t +:+ nl) = Some t.
Proof.
  induction t as [|c t IH]; [congruence|]. intros _ Hd.
  cbn [all_dot] in Hd. apply andb_true_iff in Hd as [Hc Ht].
  destruct t as [|c1 t1].
  - change (String c "" +:+ nl) with (String c (String newline "")).
    cbn [match_filterType]. now rewrite Hc.
  - assert (Hs : exists x y, t1 +:+ nl = String x y).
    { destruct t1 as [|x t2]; [exists newline, ""; reflexivity|].
      exists x, (t2 +:+ nl). reflexivity. }
    destruct Hs as (x & y & Hs).
    rewrite !append_cons, Hs, match_filterType_cons2, Hc.
    rewrite <- Hs, <- append_cons, IH; [reflexivity | discriminate | exact Ht].
Qed.

Lemma match_tail_complete (t : string) :
  t <> "" -> all_dot t = true ->
  match_tail ("__" +:+ t) = Some t /\ match_tail ("__" +:+ t +:+ nl) = Some t.
Proof.
  intros Hne Hd. split.
  - change ("__" +:+ t) with (String underscore (String underscore t)).
    cbn [match_tail]. rewrite Ascii.eqb_refl. cbn [andb].
    now apply match_filterType_complete.
  - change ("__" +:+ t +:+ nl)
      with (String underscore (String underscore (t +:+ nl))).
    cbn [match_tail]. rewrite Ascii.eqb_refl. cbn [andb].
    now apply match_filterType_nl.
Qed.

Lemma match_field_length (s pre f t : string) :
  match_field pre s = Some (f, t) -> String.length pre <= String.length f.
Proof.
  revert pre. induction s as [|c s IH]; intros pre; [discriminate|].
  rewrite match_field_cons. cbv zeta.
  assert (Hhere : match match_tail (String c s) with
                  | Some ft => Some (pre, ft) | None => None end = Some (f, t) ->
                  String.length pre <= String.length f).
  { destruct (match_tail (String c s)); [|discriminate]. now intros [= <- <-]. }
  destruct (dot c); [|exact Hhere].
  destruct (match_field (pre +:+ String c "") s) as [[f1 t1]|] eqn:Hrec; [|exact Hhere].
  intros [= -> ->]. apply IH in Hrec.
  assert (Hl : String.length (pre +:+ String c "") = S (String.length pre)).
  { clear. induction pre as [|x pre IHp]; [reflexivity|].
    rewrite append_cons. cbn [String.length]. now rewrite IHp. }
  lia.
Qed.

Lemma string_length_app (a b : string) :
  String.length (a +:+ b) = String.length a + String.length b.
Proof.
  induction a as [|x a IH]; [reflexivity|].
  rewrite append_cons. cbn [String.length]. now rewrite IH.
Qed.

Lemma match_field_greedy (a pre s t : string) :
  all_dot a = true -> match_tail s = Some t ->
  exists f t', match_field pre (a +:+ s) = Some (f, t')
               /\ String.length (pre +:+ a) <= String.length f.
Proof.
  intros Ha Ht. revert pre Ha. induction a as [|c a IH]; intros pre Ha.
  - change ("" +:+ s) with s. destruct s as [|c s]; [discriminate|].
    rewrite match_field_cons. cbv zeta. rewrite Ht.
    rewrite string_length_app. cbn [String.length].
    destruct (dot c).
    + destruct (match_field (pre +:+ String c "") s) as [[f1 t1]|] eqn:Hrec.
      * exists f1, t1. split; [reflexivity|].
        apply match_field_length in Hrec. rewrite string_length_app in Hrec. lia.
      * exists pre, t. split; [reflexivity | lia].
    + exists pre, t. split; [reflexivity | lia].
  - rewrite append_cons. cbn [all_dot] in Ha.
    apply andb_true_iff in Ha as [Hc Ha]. rewrite match_field_cons. cbv zeta.
    rewrite Hc. destruct (IH (pre +:+ String c "") Ha) as (f & t' & Hm & Hl).
    rewrite Hm. exists f, t'. split; [reflexivity|].
    rewrite !string_length_app in *. cbn [String.length] in *. lia.
Qed.

(** X1. When [FILTER_PARAM_RE] matches a key, the key is the field,
    two underscores and the filter type, possibly followed by one
    newline; neither group is empty and neither holds a newline. *)
Theorem FILTER_PARAM_RE_groups (key field ft : string) :
  FILTER_PARAM_RE_match key = Some (field, ft) ->
  (key = field +:+ "__" +:+ ft \/ key = field +:+ "__" +:+ ft +:+ nl)
  /\ field <> "" /\ ft <> ""
  /\ all_dot field = true /\ all_dot ft = true.
Proof.
  intros H. destruct (FILTER_PARAM_RE_match_sound key field ft H)
    as (H1 & H2 & H3 & H4 & H5). auto.
Qed.

(** X2. Every key that can be read as [f__t], with [f] and [t] not
    empty and without newline, is matched, and the field of the match
    is at least as long as [f]: the regular expression splits at the
    last pair of underscores that leaves a filter type. *)
Theorem FILTER_PARAM_RE_takes_longest_field (key f t : string) :
  f <> "" -> all_dot f = true -> t <> "" -> all_dot t = true ->
  key = f +:+ "__" +:+ t \/ key = f +:+ "__" +:+ t +:+ nl ->
  exists field ft,
    FILTER_PARAM_RE_match key = Some (field, ft)
    /\ String.length f <= String.length field.
Proof.
  intros Hf Hdf Ht Hdt Hkey.
  destruct (match_tail_complete t Ht Hdt) as [T1 T2].
  destruct f as [|c a]; [congruence|].
  cbn [all_dot] in Hdf. apply andb_true_iff in Hdf as [Hc Ha].
  assert (H : forall s, match_tail s = Some t ->
            exists field ft,
              FILTER_PARAM_RE_match (String c a +:+ s) = Some (field, ft)
              /\ String.length (String c a) <= String.length field).
  { intros s Hs. rewrite append_cons. unfold FILTER_PARAM_RE_match. rewrite Hc.
    destruct (match_field_greedy a (String c "") s t Ha Hs) as (fd & ft & Hm & Hl).
    exists fd, ft. split; [exact Hm|]. exact Hl. }
  destruct Hkey as [-> | ->]; [apply (H _ T1) | apply (H _ T2)].
Qed.

(** X3. A key [field__ft] whose filter type holds no underscore splits
    into exactly [field] and [ft], whatever underscores the field
    holds. *)
Theorem FILTER_PARAM_RE_splits_at_operator (field ft : string) :
  field <> "" -> all_dot field = true ->
  ft <> "" -> all_dot ft = true -> no_underscore ft = true ->
  FILTER_PARAM_RE_match (field +:+ "__" +:+ ft) = Some (field, ft).
Proof. apply FILTER_PARAM_RE_match_split. Qed.

(** ** The parser as a list of recorded clauses *)

Section ParserShape.
Context `{M : PyModel}.

Lemma parse_arg_effect (d : gmap string (list clause)) (kv : string * value) :
  parse_arg d kv = do kc <- arg_effect kv; dict_append d (fst kc) (snd kc).
Proof.
  destruct kv as [key v]. unfold parse_arg, arg_effect. cbn [fst snd].
  destruct (FILTER_PARAM_RE_match key) as [[field ft]|]; [|reflexivity].
  now destruct (normalize ft v) as [[k v']|].
Qed.

Lemma arg_effect_key (kv : string * value) (k : string) (c : clause) :
  arg_effect kv = Ok (k, c) -> In k (map op_name operators).
Proof.
  unfold arg_effect. destruct (FILTER_PARAM_RE_match (fst kv)) as [[field ft]|].
  - destruct (normalize ft (snd kv)) as [[k' v']|] eqn:Hn; cbn; [|discriminate].
    intros [= <- <-]. eapply normalize_key, Hn.
  - intros [= <- <-]. cbn. auto 10.
Qed.

Lemma clauses_for_insert (d : gmap string (list clause)) (k k' : string)
    (l : list clause) :
  clauses_for (<[k := l]> d) k'
  = if String.eqb k k' then l else clauses_for d k'.
Proof.
  unfold clauses_for. destruct (String.eqb_spec k k') as [<- | Hne].
  - now rewrite lookup_insert_eq.
  - now rewrite lookup_insert_ne.
Qed.

Lemma picks_cons (k : string) (e : string * clause) (es : list (string * clause)) :
  picks k (e :: es)
  = ((if String.eqb (fst e) k then [snd e] else []) ++ picks k es)%list.
Proof. unfold picks. cbn. now destruct (String.eqb (fst e) k). Qed.

(** The FilterSpec after parsing: under each filter type, the list it
    had followed by the clauses the arguments record there, in the
    order of the arguments. *)
Lemma parse_args_shape (kwargs : list (string * value))
    (d F : gmap string (list clause)) :
  parse_args d kwargs = Ok F ->
  exists effs, effects kwargs = Ok effs
    /\ forall k, clauses_for F k = (clauses_for d k ++ picks k effs)%list.
Proof.
  revert d. induction kwargs as [|kv rest IH]; intros d; cbn [parse_args effects].
  - intros [= <-]. exists []. split; [reflexivity|]. intros k.
    now rewrite app_nil_r.
  - intros H. apply bind_ok in H as (d1 & H1 & H2).
    rewrite parse_arg_effect in H1. apply bind_ok in H1 as ([k0 c0] & He & Happ).
    cbn [fst snd] in Happ. destruct (IH d1 H2) as (es & Hes & Hlists).
    exists ((k0, c0) :: es). rewrite He, Hes. split; [reflexivity|].
    intros k. rewrite Hlists, picks_cons. cbn [fst snd].
    unfold dict_append, dict_get in Happ.
    destruct (d !! k0) as [l|] eqn:Hl; [|discriminate]. cbn in Happ.
    injection Happ as <-. rewrite clauses_for_insert.
    assert (Hcf : clauses_for d k0 = l) by (unfold clauses_for; now rewrite Hl).
    destruct (String.eqb_spec k0 k) as [<- | Hne].
    + now rewrite Hcf, <- app_assoc.
    + reflexivity.
Qed.

(** With the sixteen keys in place, parsing succeeds as soon as every
    argument records a clause. *)
Lemma effects_parse (kwargs : list (string * value))
    (effs : list (string * clause)) (d : gmap string (list clause)) :
  effects kwargs = Ok effs -> dom d = dom ret0 ->
  exists F, parse_args d kwargs = Ok F.
Proof.
  revert effs d. induction kwargs as [|kv rest IH]; intros effs d; cbn [parse_args effects].
  - eauto.
  - intros H Hd. apply bind_ok in H as ([k0 c0] & He & H).
    apply bind_ok in H as (es & Hes & _).
    rewrite parse_arg_effect, He. cbn [bind fst snd].
    destruct (dict_append_ok d k0 c0 Hd (arg_effect_key kv k0 c0 He)) as (l & Hl & Happ).
    rewrite Happ. cbn [bind]. apply (IH es); [exact Hes|].
    rewrite <- Hd. apply dom_insert_lookup_L. rewrite Hl. eauto.
Qed.

Lemma clauses_for_ret0 (k : string) : clauses_for ret0 k = [].
Proof.
  unfold clauses_for. destruct (ret0 !! k) as [l|] eqn:Hk; [|reflexivity].
  cbn. unfold ret0 in Hk. apply elem_of_list_to_map_2 in Hk.
  repeat (apply elem_of_cons in Hk as [Hk|Hk]; [now injection Hk|]).
  now apply elem_of_nil in Hk.
Qed.

Lemma getFiltersFromArgs_shape (kwargs : list (string * value))
    (F : gmap string (list clause)) :
  getFiltersFromArgs kwargs = Ok F ->
  exists effs, effects kwargs = Ok effs
    /\ forall k, clauses_for F k = picks k effs.
Proof.
  intros H. apply parse_args_shape in H as (effs & He & Hl).
  exists effs. split; [exact He|]. intros k. now rewrite Hl, clauses_for_ret0.
Qed.

Lemma picks_app (k : string) (e1 e2 : list (string * clause)) :
  picks k (e1 ++ e2) = (picks k e1 ++ picks k e2)%list.
Proof. unfold picks. now rewrite List.filter_app, map_app. Qed.

Lemma effects_app (kw1 kw2 : list (string * value)) :
  effects (kw1 ++ kw2)
  = do e1 <- effects kw1; do e2 <- effects kw2; Ok (e1 ++ e2)%list.
Proof.
  induction kw1 as [|kv kw1 IH]; cbn [effects app bind].
  - now destruct (effects kw2).
  - destruct (arg_effect kv) as [e|]; cbn [bind]; [|reflexivity].
    rewrite IH. destruct (effects kw1) as [e1|]; cbn [bind]; [|reflexivity].
    now destruct (effects kw2).
Qed.

End ParserShape.

(** ** The parser: keys, number and order of clauses, failures *)

Section ParserExtras.
Context `{M : PyModel}.

(** X4. The FilterSpec of a successful parse has a list under each of
    the sixteen canonical operators and no other key, whatever the
    arguments were. *)
Theorem parsed_keys_are_the_operators (kwargs : list (string * value))
    (F : gmap string (list clause)) (k : string) :
  getFiltersFromArgs kwargs = Ok F ->
  is_Some (F !! k) <-> In k (map op_name operators).
Proof.
  intros HF. split.
  - intros Hk. destruct (ret0 !! k) as [l|] eqn:Hr.
    + unfold ret0 in Hr. apply elem_of_list_to_map_2 in Hr. cbn.
      repeat (apply elem_of_cons in Hr as [Hr|Hr];
              [injection Hr as -> _; auto 20|]).
      now apply elem_of_nil in Hr.
    + rewrite (parsed_no_other_key kwargs F k HF Hr) in Hk.
      now destruct Hk.
  - intros Hk. destruct (parsed_has_key kwargs F k HF Hk) as [cs ->]. eauto.
Qed.

Lemma effects_length (kwargs : list (string * value))
    (effs : list (string * clause)) :
  effects kwargs = Ok effs -> length effs = length kwargs.
Proof.
  revert effs. induction kwargs as [|kv rest IH]; intros effs; cbn [effects].
  - now intros [= <-].
  - intros H. apply bind_ok in H as (e & _ & H).
    apply bind_ok in H as (es & Hes & H). injection H as <-.
    cbn. now rewrite (IH es Hes).
Qed.

Lemma effects_keys (kwargs : list (string * value))
    (effs : list (string * clause)) :
  effects kwargs = Ok effs ->
  Forall (fun e => In (fst e) (map op_name operators)) effs.
Proof.
  revert effs. induction kwargs as [|kv rest IH]; intros effs; cbn [effects].
  - intros [= <-]. constructor.
  - intros H. apply bind_ok in H as ([k c] & He & H).
    apply bind_ok in H as (es & Hes & H). injection H as <-.
    constructor; [exact (arg_effect_key kv k c He) | exact (IH es Hes)].
Qed.

Lemma picks_total (effs : list (string * clause)) :
  Forall (fun e => In (fst e) (map op_name operators)) effs ->
  length (flat_map (fun op => map (pair op) (picks (op_name op) effs)) operators)
  = length effs.
Proof.
  induction 1 as [|[k c] es Hk _ IH].
  - reflexivity.
  - unfold operators in *. cbn [flat_map op_name] in *.
    rewrite !length_app, !length_map in *. rewrite !picks_cons.
    rewrite !length_app. cbn [fst snd map In] in *.
    cbn [length] in IH.
    repeat (destruct Hk as [<- | Hk]; [cbn; lia|]). contradiction.
Qed.

Lemma clauses_of_length (kwargs : list (string * value))
    (F : gmap string (list clause)) :
  getFiltersFromArgs kwargs = Ok F ->
  length (clauses_of F) = length kwargs.
Proof.
  intros HF. apply getFiltersFromArgs_shape in HF as (effs & He & Hl).
  rewrite <- (effects_length kwargs effs He),
          <- (picks_total effs (effects_keys kwargs effs He)).
  unfold clauses_of. f_equal. apply flat_map_ext. intros op. now rewrite Hl.
Qed.

(** X5. Each argument records exactly one clause: a parsed FilterSpec
    holds as many clauses as there were arguments. *)
Theorem one_clause_per_argument (kwargs : list (string * value))
    (F : gmap string (list clause)) :
  getFiltersFromArgs kwargs = Ok F ->
  length (clauses_of F) = length kwargs.
Proof. apply clauses_of_length. Qed.

Lemma normalize_raises (ft : string) (v : value) (e : exn) :
  normalize ft v = Raise e ->
  (in_FILTER_TYPES ft = false /\ e = ValueError (unknown_filter_msg ft))
  \/ (ft = "isnull" /\ type_is_bool v = false /\ e = ValueError isnull_msg)
  \/ ((ft = "ieq" \/ ft = "ine") /\ py_lower v = Raise e).
Proof.
  unfold normalize. destruct (in_FILTER_TYPES ft) eqn:Hin; cbn [negb].
  - apply in_FILTER_TYPES_cases in Hin. destruct Hin as [-> | Hin].
    + cbn. destruct (type_is_bool v); cbn.
      * destruct (py_is v VTrue); discriminate.
      * intros [= <-]. auto.
    + cbn in Hin.
      repeat (destruct Hin as [<- | Hin];
              [cbn; try discriminate;
               destruct (py_lower v) eqn:Hlow; cbn; try discriminate;
               intros [= <-]; auto 10 |]).
      contradiction.
  - intros [= <-]. auto.
Qed.

Lemma parse_args_raises (kwargs : list (string * value))
    (d : gmap string (list clause)) (e : exn) :
  dom d = dom ret0 -> parse_args d kwargs = Raise e ->
  exists kv, In kv kwargs /\ arg_effect kv = Raise e.
Proof.
  revert d. induction kwargs as [|kv rest IH]; intros d Hd; cbn [parse_args];
    [discriminate|].
  rewrite parse_arg_effect. destruct (arg_effect kv) as [[k0 c0]|e0] eqn:He;
    cbn [bind fst snd].
  - destruct (dict_append_ok d k0 c0 Hd (arg_effect_key kv k0 c0 He)) as (l & Hl & Happ).
    rewrite Happ. cbn [bind]. intros H. destruct (IH _ (eq_trans
      (dom_insert_lookup_L d k0 _ (ex_intro _ l Hl)) Hd) H) as (kv' & Hin & Hkv').
    exists kv'. split; [now right | exact Hkv'].
  - intros [= <-]. exists kv. split; [now left | exact He].
Qed.

(** X6. The parser raises for three reasons only, each due to one of
    the arguments: a key that splits with a filter type outside
    [FILTER_TYPES], an [isnull] whose value is not of type [bool], or
    an [ieq] or [ine] whose value cannot be lower-cased. In particular
    it never raises [KeyError], and never on a key that does not
    split, nor on [in] and [notin] whatever [set] does. *)
Theorem parser_raises_only_for (kwargs : list (string * value)) (e : exn) :
  getFiltersFromArgs kwargs = Raise e ->
  exists key v field ft,
    In (key, v) kwargs
    /\ FILTER_PARAM_RE_match key = Some (field, ft)
    /\ ((in_FILTER_TYPES ft = false /\ e = ValueError (unknown_filter_msg ft))
        \/ (ft = "isnull" /\ type_is_bool v = false /\ e = ValueError isnull_msg)
        \/ ((ft = "ieq" \/ ft = "ine") /\ py_lower v = Raise e)).
Proof.
  intros H. apply parse_args_raises in H as ([key v] & Hin & He); [|reflexivity].
  unfold arg_effect in He. cbn [fst snd] in He.
  destruct (FILTER_PARAM_RE_match key) as [[field ft]|] eqn:Hm; [|discriminate].
  exists key, v, field, ft. split; [exact Hin|]. split; [exact Hm|].
  apply normalize_raises. revert He.
  destruct (normalize ft v); cbn [bind]; [discriminate | now intros [= <-]].
Qed.

(** X7. An argument whose filter type is an operator other than [ieq]
    and [ine] never makes the parser fail. It records its value as it
    is, except that for [in] and [notin] the value is replaced by
    [set(value)] when that can be built. *)
Theorem other_operators_record_the_value
    (key field ft : string) (v : value) (pre : list (string * value))
    (ret : gmap string (list clause)) :
  FILTER_PARAM_RE_match key = Some (field, ft) ->
  In ft (map op_name operators) -> ft <> "ieq" -> ft <> "ine" ->
  parse_args ret0 pre = Ok ret ->
  exists l, ret !! ft = Some l /\
    getFiltersFromArgs (pre ++ [(key, v)])
    = Ok (<[ft := (l ++ [(field, recorded ft v)])%list]> ret).
Proof.
  intros Hm Hft Hieq Hine Hpre.
  assert (Hn : normalize ft v = Ok (ft, recorded ft v)).
  { cbn in Hft.
    repeat (destruct Hft as [<- | Hft]; [reflexivity || congruence|]).
    contradiction. }
  destruct (dict_append_ok ret ft (field, recorded ft v)) as (l & Hl & Happ).
  - now apply parse_args_dom in Hpre.
  - exact Hft.
  - exists l. split; [exact Hl|].
    rewrite (parse_last pre (key, v) ret Hpre). unfold parse_arg.
    now rewrite Hm, Hn.
Qed.

Lemma parse_of_concatenation_lists (kw1 kw2 : list (string * value))
    (F1 F2 F : gmap string (list clause)) :
  getFiltersFromArgs kw1 = Ok F1 ->
  getFiltersFromArgs kw2 = Ok F2 ->
  getFiltersFromArgs (kw1 ++ kw2) = Ok F ->
  forall k, clauses_for F k = (clauses_for F1 k ++ clauses_for F2 k)%list.
Proof.
  intros H1 H2 HF k.
  destruct (getFiltersFromArgs_shape kw1 F1 H1) as (e1 & He1 & Hl1).
  destruct (getFiltersFromArgs_shape kw2 F2 H2) as (e2 & He2 & Hl2).
  destruct (getFiltersFromArgs_shape _ F HF) as (e & He & Hl).
  rewrite effects_app, He1, He2 in He. cbn in He. injection He as <-.
  now rewrite Hl, picks_app, Hl1, Hl2.
Qed.

(** X8. Parsing two argument lists one after the other gives, under
    each filter type, the clauses of the first list followed by those
    of the second: clauses are kept in the order of the arguments. *)
Theorem parse_of_concatenation (kw1 kw2 : list (string * value))
    (F1 F2 : gmap string (list clause)) :
  getFiltersFromArgs kw1 = Ok F1 ->
  getFiltersFromArgs kw2 = Ok F2 ->
  exists F, getFiltersFromArgs (kw1 ++ kw2) = Ok F
    /\ forall k, clauses_for F k = (clauses_for F1 k ++ clauses_for F2 k)%list.
Proof.
  intros H1 H2.
  destruct (getFiltersFromArgs_shape kw1 F1 H1) as (e1 & He1 & Hl1).
  destruct (getFiltersFromArgs_shape kw2 F2 H2) as (e2 & He2 & Hl2).
  assert (He : effects (kw1 ++ kw2) = Ok (e1 ++ e2)%list).
  { now rewrite effects_app, He1, He2. }
  destruct (effects_parse (kw1 ++ kw2) _ ret0 He eq_refl) as [F HF].
  exists F. split; [exact HF|]. intros k.
  destruct (getFiltersFromArgs_shape _ F HF) as (e' & He' & Hl').
  rewrite He in He'. injection He' as <-.
  now rewrite Hl', picks_app, Hl1, Hl2.
Qed.

Lemma effects_perm (kw kw' : list (string * value))
    (effs : list (string * clause)) :
  Permutation kw kw' -> effects kw = Ok effs ->
  exists effs', effects kw' = Ok effs' /\ Permutation effs effs'.
Proof.
  intros HP. revert effs. induction HP as [|kv l l' _ IH|a b l|l l' l'' _ IH1 _ IH2];
    intros effs; cbn [effects].
  - intros [= <-]. exists []. split; [reflexivity | constructor].
  - intros H. apply bind_ok in H as (e & He & H).
    apply bind_ok in H as (es & Hes & H). injection H as <-.
    destruct (IH es Hes) as (es' & Hes' & Hp). exists (e :: es').
    rewrite He, Hes'. split; [reflexivity | now constructor].
  - intros H. apply bind_ok in H as (eb & Heb & H).
    apply bind_ok in H as (es0 & H & Hr). apply bind_ok in H as (ea & Hea & H).
    apply bind_ok in H as (es & Hes & H). injection H as <-. injection Hr as <-.
    exists (ea :: eb :: es). rewrite Hea, Heb, Hes. split; [reflexivity|].
    apply perm_swap.
  - intros H. destruct (IH1 effs H) as (e1 & He1 & Hp1).
    destruct (IH2 e1 He1) as (e2 & He2 & Hp2).
    exists e2. split; [exact He2 | now transitivity e1].
Qed.

Lemma picks_perm (k : string) (e e' : list (string * clause)) :
  Permutation e e' -> Permutation (picks k e) (picks k e').
Proof.
  intros HP. unfold picks. apply Permutation_map.
  induction HP as [|x l l' _ IH|a b l|l l' l'' _ IH1 _ IH2]; cbn.
  - constructor.
  - destruct (String.eqb (fst x) k); [now constructor | exact IH].
  - destruct (String.eqb (fst a) k), (String.eqb (fst b) k);
      try reflexivity. apply perm_swap.
  - now transitivity (List.filter (fun kc => String.eqb (fst kc) k) l').
Qed.

Lemma parse_of_permutation_lists (kw kw' : list (string * value))
    (F F' : gmap string (list clause)) :
  Permutation kw kw' ->
  getFiltersFromArgs kw = Ok F ->
  getFiltersFromArgs kw' = Ok F' ->
  forall k, Permutation (clauses_for F k) (clauses_for F' k).
Proof.
  intros HP HF HF' k.
  destruct (getFiltersFromArgs_shape kw F HF) as (e & He & Hl).
  destruct (getFiltersFromArgs_shape kw' F' HF') as (e' & He' & Hl').
  destruct (effects_perm kw kw' e HP He) as (e2 & He2 & Hp).
  rewrite He' in He2. injection He2 as <-.
  rewrite Hl, Hl'. now apply picks_perm.
Qed.

(** X9. Whether the parser succeeds does not depend on the order of the
    arguments, and reordering them only reorders the clauses within
    each filter type. *)
Theorem parse_of_permutation (kw kw' : list (string * value))
    (F : gmap string (list clause)) :
  Permutation kw kw' ->
  getFiltersFromArgs kw = Ok F ->
  exists F', getFiltersFromArgs kw' = Ok F'
    /\ forall k, Permutation (clauses_for F k) (clauses_for F' k).
Proof.
  intros HP HF. destruct (getFiltersFromArgs_shape kw F HF) as (e & He & Hl).
  destruct (effects_perm kw kw' e HP He) as (e' & He' & Hp).
  destruct (effects_parse kw' e' ret0 He' eq_refl) as [F' HF'].
  exists F'. split; [exact HF'|]. intros k.
  destruct (getFiltersFromArgs_shape kw' F' HF') as (e2 & He2 & Hl2).
  rewrite He' in He2. injection He2 as <-.
  rewrite Hl, Hl2. now apply picks_perm.
Qed.

End ParserExtras.

(** ** filterAnd: chaining, order of the arguments, record by record *)

Section AndExtras.
Context `{M : PyModel}.

Ltac body_cases it f v :=
  destruct (_get_item_value it f); cbn [bind]; [|discriminate];
  unfold neg_result;
  repeat match goal with
         | |- context [bind ?x _] => destruct x; cbn [bind negb]
         | |- context [match ?x with _ => _ end] => destruct x; cbn [bind negb]
         end; discriminate.

(** No loop body of [filterAnd] puts [keepIt] to [True]. *)
Lemma and_bodies_never_accept :
  Forall (fun st : string * (item -> string -> value -> result ctl) =>
            forall it f v, snd st it f v <> Ok (Break true))
         and_stages.
Proof.
  unfold and_stages.
  repeat (constructor; [cbn [snd]; intros it f v|]); try constructor.
  all: unfold and_is, and_isnot, and_in, and_notin, and_eq, and_ieq, and_ne,
         and_ine, and_lt, and_lte, and_gt, and_gte, and_contains,
         and_notcontains, and_containsAny, and_notcontainsAny,
         py_not_in, name_Value.
  all: body_cases it f v.
Qed.

Lemma for_clauses_accepts (body : string -> value -> result ctl)
    (cs : list clause) (k : bool) :
  (forall f v, body f v <> Ok (Break true)) ->
  for_clauses body cs true = Ok k ->
  k = forallb (fun c : clause => is_next (body (fst c) (snd c))) cs.
Proof.
  intros Hb. induction cs as [|[f v] cs IH]; cbn [for_clauses forallb fst snd].
  - now intros [= <-].
  - specialize (Hb f v).
    destruct (body f v) as [[|[]]|]; cbn [bind is_next andb];
      [exact IH | congruence | now intros [= <-] | discriminate].
Qed.

Lemma and_from_accepts
    (stages : list (string * (item -> string -> value -> result ctl)))
    (F : gmap string (list clause)) (it : item) (b : bool) :
  Forall (fun st => forall it f v, snd st it f v <> Ok (Break true)) stages ->
  and_from stages F it true = Ok b ->
  b = forallb (fun st : string * (item -> string -> value -> result ctl) =>
                 forallb (fun c : clause => is_next (snd st it (fst c) (snd c)))
                         (clauses_for F (fst st)))
              stages.
Proof.
  intros Hst. revert b. induction Hst as [|[k body] stages Hb _ IH]; intros b;
    cbn [and_from forallb fst snd].
  - now intros [= <-].
  - intros Hrun. apply bind_ok in Hrun as (cs & Hcs & Hrun).
    apply dict_get_clauses_for in Hcs. rewrite Hcs.
    apply bind_ok in Hrun as (k' & Hk' & Hrun).
    apply for_clauses_accepts in Hk'; [|intros f v; apply (Hb it f v)].
    rewrite <- Hk'. destruct k'; cbn [negb andb] in *.
    + now apply IH.
    + now injection Hrun as <-.
Qed.

(** When the body of [for item in self] ends without raising, the item
    is appended exactly when no loop rejected it. *)
Lemma and_item_accepts (F : gmap string (list clause)) (it : item) (b : bool) :
  and_item F it = Ok b -> b = and_accepts F it.
Proof. apply and_from_accepts, and_bodies_never_accept. Qed.

Lemma and_loop_accepts (F : gmap string (list clause)) (R res : list item) :
  and_loop F R [] = Ok res ->
  res = List.filter (and_accepts F) R
  /\ Forall (fun it => and_item F it = Ok (and_accepts F it)) R.
Proof.
  intros H. apply and_loop_spec in H as [-> Hall]. cbn [app].
  assert (Hall' : Forall (fun it => and_item F it = Ok (and_accepts F it)) R).
  { apply Forall_forall. intros it Hit. rewrite Forall_forall in Hall.
    destruct (Hall it Hit) as [b Hb]. rewrite Hb. f_equal.
    exact (and_item_accepts F it b Hb). }
  split; [|exact Hall'].
  apply filter_ext_in. intros it Hit. rewrite Forall_forall in Hall'.
  rewrite (Hall' it); [|now apply list_elem_of_In].
  unfold is_true. now destruct (and_accepts F it).
Qed.

Lemma forallb_andb {A : Type} (p q : A -> bool) (l : list A) :
  forallb (fun a => p a && q a) l = forallb p l && forallb q l.
Proof.
  induction l as [|a l IH]; cbn; [reflexivity|]. rewrite IH.
  destruct (p a), (q a), (forallb p l); reflexivity.
Qed.

Lemma forallb_perm {A : Type} (p : A -> bool) (l l' : list A) :
  Permutation l l' -> forallb p l = forallb p l'.
Proof.
  induction 1 as [|x l l' _ IH|a b l|l l' l'' _ IH1 _ IH2]; cbn.
  - reflexivity.
  - now rewrite IH.
  - destruct (p a), (p b); reflexivity.
  - now rewrite IH1.
Qed.

Lemma and_accepts_app (F F1 F2 : gmap string (list clause)) (it : item) :
  (forall k, clauses_for F k = (clauses_for F1 k ++ clauses_for F2 k)%list) ->
  and_accepts F it = and_accepts F1 it && and_accepts F2 it.
Proof.
  intros H. unfold and_accepts. rewrite <- forallb_andb.
  apply forallb_ext. intros st. now rewrite H, forallb_app.
Qed.

Lemma and_accepts_perm (F F' : gmap string (list clause)) (it : item) :
  (forall k, Permutation (clauses_for F k) (clauses_for F' k)) ->
  and_accepts F it = and_accepts F' it.
Proof.
  intros H. unfold and_accepts. apply forallb_ext. intros st.
  apply forallb_perm, H.
Qed.

Lemma filter_filter {A : Type} (p q : A -> bool) (l : list A) :
  List.filter q (List.filter p l) = List.filter (fun a => p a && q a) l.
Proof.
  induction l as [|a l IH]; cbn; [reflexivity|].
  destruct (p a); cbn; [destruct (q a); now rewrite IH | exact IH].
Qed.

(** X10. Chaining: filtering by one list of arguments and then
    filtering the result by another gives what filtering once by both
    lists gives, whenever the three calls return. *)
Theorem filterAnd_chained (R r1 r2 r12 : list item)
    (kw1 kw2 : list (string * value)) :
  filterAnd R kw1 = Ok r1 ->
  filterAnd r1 kw2 = Ok r2 ->
  filterAnd R (kw1 ++ kw2) = Ok r12 ->
  r12 = r2.
Proof.
  unfold filterAnd. intros H1 H2 H12.
  apply bind_ok in H1 as (F1 & HF1 & H1).
  apply bind_ok in H2 as (F2 & HF2 & H2).
  apply bind_ok in H12 as (F & HF & H12).
  assert (Hl := parse_of_concatenation_lists kw1 kw2 F1 F2 F HF1 HF2 HF).
  apply and_loop_accepts in H1 as [-> _].
  apply and_loop_accepts in H2 as [-> _].
  apply and_loop_accepts in H12 as [-> _].
  rewrite filter_filter. apply filter_ext. intros it.
  now apply and_accepts_app.
Qed.

(** X11. The result of [filterAnd] does not depend on the order of the
    arguments: two calls whose arguments are a permutation of each
    other return the same sequence, when both return. *)
Theorem filterAnd_argument_order (R res res' : list item)
    (kw kw' : list (string * value)) :
  Permutation kw kw' ->
  filterAnd R kw = Ok res ->
  filterAnd R kw' = Ok res' ->
  res = res'.
Proof.
  unfold filterAnd. intros HP H1 H2.
  apply bind_ok in H1 as (F & HF & H1).
  apply bind_ok in H2 as (F' & HF' & H2).
  assert (Hl := parse_of_permutation_lists kw kw' F F' HP HF HF').
  apply and_loop_accepts in H1 as [-> _].
  apply and_loop_accepts in H2 as [-> _].
  apply filter_ext. intros it. now apply and_accepts_perm.
Qed.

End AndExtras.

(** ** filterOr against the match conditions *)

Section OrFacts.
Context `{M : PyModel}.

Ltac start_or :=
  intros it f v; unfold clause_holds; cbn [fst snd matches];
  unfold py_not_in, neg_result;
  destruct (_get_item_value it f) as [x|e]; cbn [bind]; [|exact I].

Lemma or_is_exact : or_body_exact OpIs or_is.
Proof. unfold or_is. start_or. now destruct (py_is x v). Qed.

Lemma or_isnot_exact : or_body_exact OpIsnot or_isnot.
Proof. unfold or_isnot. start_or. now destruct (py_is x v). Qed.

Lemma or_in_exact : or_body_exact OpIn or_in.
Proof. unfold or_in. start_or. now destruct (py_in x v) as [[]|]. Qed.

Lemma or_notin_exact : or_body_exact OpNotin or_notin.
Proof. unfold or_notin. start_or. now destruct (py_in x v) as [[]|]. Qed.

Lemma or_eq_exact : or_body_exact OpEq or_eq.
Proof. unfold or_eq. start_or. now destruct (py_eq x v). Qed.

Lemma or_ieq_exact : or_body_exact OpIeq or_ieq.
Proof.
  unfold or_ieq. start_or. destruct (py_lower x) as [xl|]; [|reflexivity].
  now destruct (py_eq xl v).
Qed.

Lemma or_ne_exact : or_body_exact OpNe or_ne.
Proof. unfold or_ne. start_or. now destruct (py_ne x v). Qed.

Lemma or_lt_exact : or_body_exact OpLt or_lt.
Proof. unfold or_lt. start_or. now destruct (py_lt x v) as [[]|]. Qed.

Lemma or_lte_exact : or_body_exact OpLte or_lte.
Proof. unfold or_lte. start_or. now destruct (py_le x v) as [[]|]. Qed.

Lemma or_gt_exact : or_body_exact OpGt or_gt.
Proof. unfold or_gt. start_or. now destruct (py_gt x v) as [[]|]. Qed.

Lemma or_gte_exact : or_body_exact OpGte or_gte.
Proof. unfold or_gte. start_or. now destruct (py_ge x v) as [[]|]. Qed.

Lemma or_contains_exact : or_body_exact OpContains or_contains.
Proof. unfold or_contains. start_or. now destruct (py_in v x) as [[]|]. Qed.

Lemma or_notcontains_exact : or_body_exact OpNotcontains or_notcontains.
Proof. unfold or_notcontains. start_or. now destruct (py_in v x) as [[]|]. Qed.

Lemma or_containsAny_exact : or_body_exact OpContainsAny or_containsAny.
Proof.
  unfold or_containsAny. start_or.
  destruct (didContain v x) as [d|] eqn:Hd; cbn [bind]; [|exact I].
  apply didContain_spec in Hd. rewrite Hd. now destruct d.
Qed.

(** The last loop of [filterOr] never gets past the name [Value]. *)
Lemma or_notcontainsAny_raises (it : item) (f : string) (v : value) :
  exists e, or_notcontainsAny it f v = Raise e.
Proof.
  unfold or_notcontainsAny, name_Value.
  destruct (_get_item_value it f); cbn; eauto.
Qed.

Lemma or_notcontainsAny_exact : or_body_exact OpNotcontainsAny or_notcontainsAny.
Proof.
  intros it f v. destruct (or_notcontainsAny_raises it f v) as [e ->]. exact I.
Qed.

(** The [ine] loop accepts only on a clause that holds. *)
Lemma or_ine_sound (it : item) (f : string) (v : value) :
  or_ine it f v = Ok (Break true) -> clause_holds OpIne it (f, v) = Ok true.
Proof.
  unfold or_ine, clause_holds. cbn [fst snd matches].
  destruct (_get_item_value it f) as [x|]; cbn [bind]; [|discriminate].
  destruct (py_lower x) as [xl|]; [|discriminate].
  destruct (py_ne xl v); [reflexivity | discriminate].
Qed.

Lemma exact_sound (op : operator) (body : item -> string -> value -> result ctl) :
  or_body_exact op body ->
  forall it f v, body it f v = Ok (Break true) -> clause_holds op it (f, v) = Ok true.
Proof. intros H it f v Hb. specialize (H it f v). now rewrite Hb in H. Qed.

Lemma or_stages_sound : Forall2 or_sound_stage operators or_stages.
Proof.
  unfold operators, or_stages.
  repeat (constructor; [split; [reflexivity|cbn [snd]] | ]); try constructor;
    try exact or_ine_sound; apply exact_sound;
    auto using or_is_exact, or_isnot_exact, or_in_exact, or_notin_exact,
      or_eq_exact, or_ieq_exact, or_ne_exact, or_lt_exact, or_lte_exact,
      or_gt_exact, or_gte_exact, or_contains_exact, or_notcontains_exact,
      or_containsAny_exact, or_notcontainsAny_exact.
Qed.

Lemma for_clauses_or_sound (op : operator)
    (body : item -> string -> value -> result ctl) (it : item) (cs : list clause) :
  (forall it f v, body it f v = Ok (Break true) ->
                  clause_holds op it (f, v) = Ok true) ->
  for_clauses (body it) cs false = Ok true ->
  exists c, In c cs /\ clause_holds op it c = Ok true.
Proof.
  intros Hb. induction cs as [|[f v] cs IH]; cbn [for_clauses]; [discriminate|].
  destruct (body it f v) as [[|b]|] eqn:E; cbn [bind]; [| |discriminate].
  - intros H. destruct (IH H) as (c & Hc & Hh). exists c. split; [now right|exact Hh].
  - intros [= ->]. exists (f, v). split; [now left | now apply Hb].
Qed.

Lemma or_from_sound (ops : list operator)
    (stages : list (string * (item -> string -> value -> result ctl)))
    (F : gmap string (list clause)) (it : item) :
  Forall2 or_sound_stage ops stages ->
  or_from stages F it false = Ok true ->
  exists op c, In op ops /\ In c (clauses_for F (op_name op))
               /\ clause_holds op it c = Ok true.
Proof.
  induction 1 as [|op [k body] ops stages [Hk Hb] _ IH]; cbn [or_from];
    [discriminate|].
  cbn [fst snd] in Hk, Hb. subst k. intros Hrun.
  apply bind_ok in Hrun as (cs & Hcs & Hrun).
  apply dict_get_clauses_for in Hcs.
  apply bind_ok in Hrun as (k' & Hk' & Hrun). destruct k'.
  - destruct (for_clauses_or_sound op body it cs Hb Hk') as (c & Hc & Hh).
    exists op, c. rewrite Hcs. split; [now left|]. split; assumption.
  - destruct (IH Hrun) as (op' & c & Hop & Hc & Hh).
    exists op', c. split; [now right|]. split; assumption.
Qed.

Lemma in_clauses_of (F : gmap string (list clause)) (op : operator) (c : clause) :
  In op operators -> In c (clauses_for F (op_name op)) -> In (op, c) (clauses_of F).
Proof.
  intros Hop Hc. unfold clauses_of. apply in_flat_map. exists op.
  split; [exact Hop|]. now apply in_map.
Qed.

Lemma or_loop_spec (F : gmap string (list clause)) (items ret res : list item) :
  or_loop F items ret = Ok res ->
  res = (ret ++ List.filter (fun it => is_true (or_item F it)) items)%list
  /\ Forall (fun it => exists b, or_item F it = Ok b) items.
Proof.
  revert ret. induction items as [|it items IH]; intros ret; cbn [or_loop List.filter].
  - intros [= <-]. now rewrite app_nil_r.
  - intros H. apply bind_ok in H as (keep & Hk & H).
    apply IH in H as [-> Hall]. rewrite Hk. split; [|constructor; eauto].
    destruct keep; cbn [is_true]; [now rewrite <- app_assoc | reflexivity].
Qed.

Lemma or_loop_all_kept (F : gmap string (list clause)) (items ret : list item) :
  Forall (fun it => or_item F it = Ok true) items ->
  or_loop F items ret = Ok (ret ++ items)%list.
Proof.
  intros H. revert ret. induction H as [|it items Hit _ IH]; intros ret; cbn [or_loop].
  - now rewrite app_nil_r.
  - rewrite Hit. cbn [bind]. rewrite IH, <- app_assoc. reflexivity.
Qed.

(** X12. What [filterOr] returns is a subsequence of the records, in
    their order, and every record in it satisfies at least one clause
    of the FilterSpec. *)
Theorem filterOr_subsequence_and_sound
    (R : list item) (kwargs : list (string * value))
    (F : gmap string (list clause)) (res : list item) :
  getFiltersFromArgs kwargs = Ok F ->
  filterOr R kwargs = Ok res ->
  sublist res R
  /\ forall it, In it res ->
       In it R /\ exists op c, In (op, c) (clauses_of F)
                               /\ clause_holds op it c = Ok true.
Proof.
  intros HF Hrun. unfold filterOr in Hrun. rewrite HF in Hrun. cbn [bind] in Hrun.
  apply or_loop_spec in Hrun as [-> _]. cbn [app].
  split; [apply filter_sublist|]. intros it Hit.
  apply filter_In in Hit as [Hin Hit]. split; [exact Hin|].
  apply is_true_ok in Hit.
  destruct (or_from_sound operators or_stages F it or_stages_sound Hit)
    as (op & c & Hop & Hc & Hh).
  exists op, c. split; [now apply in_clauses_of | exact Hh].
Qed.

(** X13. [filterOr] applied to its own result returns it again. *)
Theorem filterOr_idempotent
    (R : list item) (kwargs : list (string * value)) (res : list item) :
  filterOr R kwargs = Ok res ->
  filterOr res kwargs = Ok res.
Proof.
  unfold filterOr. destruct (getFiltersFromArgs kwargs) as [F|]; cbn [bind];
    [|discriminate].
  intros Hrun. apply or_loop_spec in Hrun as [Hres _]. cbn [app] in Hres.
  rewrite (or_loop_all_kept F res []); [reflexivity|].
  rewrite Hres. apply Forall_forall. intros it Hit.
  apply list_elem_of_In, filter_In in Hit as [_ Hit]. now apply is_true_ok.
Qed.

End OrFacts.

(** ** filterOr: when it is exact; one argument; record by record *)

Section OrExtras.
Context `{M : PyModel}.

Ltac never_break b it f v :=
  destruct (_get_item_value it f); cbn [bind]; [|discriminate];
  unfold neg_result;
  repeat match goal with
         | |- context [bind ?x _] => destruct x; cbn [bind negb]
         | |- context [match ?x with _ => _ end] => destruct x; cbn [bind negb]
         end; discriminate.

Lemma for_clauses_or_exact (op : operator)
    (body : item -> string -> value -> result ctl) (it : item)
    (cs : list clause) (k : bool) :
  or_body_exact op body ->
  length cs <= 1 \/ (forall it f v, body it f v <> Ok (Break false)) ->
  for_clauses (body it) cs false = Ok k ->
  k = existsb (satisfied op it) cs.
Proof.
  intros Hb. induction cs as [|[f v] cs IH]; cbn [for_clauses existsb].
  - now intros _ [= <-].
  - intros Hc Hrun. specialize (Hb it f v). unfold satisfied at 1.
    destruct (body it f v) as [[|b]|] eqn:E; cbn [bind] in Hrun; [| |discriminate].
    + rewrite Hb. cbn [is_true orb]. apply IH; [|exact Hrun].
      destruct Hc as [Hc | Hc]; [left; cbn in Hc; lia | now right].
    + injection Hrun as <-. rewrite Hb. destruct b; [reflexivity|].
      cbn [is_true orb]. destruct Hc as [Hc | Hc].
      * destruct cs; [reflexivity | cbn in Hc; lia].
      * now destruct (Hc it f v).
Qed.

Lemma or_from_exact (ops : list operator)
    (stages : list (string * (item -> string -> value -> result ctl)))
    (F : gmap string (list clause)) (it : item) (b : bool) :
  Forall2 (or_exact_stage F) ops stages ->
  or_from stages F it false = Ok b ->
  b = existsb (fun op => existsb (satisfied op it) (clauses_for F (op_name op))) ops.
Proof.
  intros Hst. revert b. induction Hst as [|op [k body] ops stages [Hk Hq] _ IH];
    intros b; cbn [or_from existsb].
  - now intros [= <-].
  - cbn [fst snd] in Hk, Hq. subst k. intros Hrun.
    apply bind_ok in Hrun as (cs & Hcs & Hrun).
    apply dict_get_clauses_for in Hcs. rewrite Hcs in *.
    apply bind_ok in Hrun as (k' & Hk' & Hrun).
    assert (Hk2 : k' = existsb (satisfied op it) cs).
    { destruct Hq as [-> | [Hb Hc]].
      - cbn in Hk'. now injection Hk' as <-.
      - now apply (for_clauses_or_exact op body it cs k' Hb Hc). }
    rewrite <- Hk2. destruct k'; cbn [orb].
    + now injection Hrun as <-.
    + now apply IH.
Qed.

Lemma or_stages_exact (F : gmap string (list clause)) :
  plain_or F = true -> Forall2 (or_exact_stage F) operators or_stages.
Proof.
  unfold plain_or. intros H. apply andb_true_iff in H as [Hine Hieq].
  assert (Hine' : clauses_for F "ine" = []) by now destruct (clauses_for F "ine").
  apply Nat.leb_le in Hieq.
  unfold operators, or_stages.
  repeat (constructor; [split; [reflexivity|cbn [snd op_name]] | ]);
    try solve [constructor].
  all: first
    [ left; exact Hine'
    | right; split;
      [ auto using or_is_exact, or_isnot_exact, or_in_exact, or_notin_exact,
          or_eq_exact, or_ieq_exact, or_ne_exact, or_lt_exact, or_lte_exact,
          or_gt_exact, or_gte_exact, or_contains_exact, or_notcontains_exact,
          or_containsAny_exact, or_notcontainsAny_exact
      | first
          [ left; exact Hieq
          | right; intros it f v;
            unfold or_is, or_isnot, or_in, or_notin, or_eq, or_ne, or_lt,
              or_lte, or_gt, or_gte, or_contains, or_notcontains,
              or_containsAny, or_notcontainsAny, py_not_in, name_Value;
            never_break false it f v ] ] ].
Qed.

Lemma existsb_flat_map {A B : Type} (p : B -> bool) (g : A -> list B) (l : list A) :
  existsb p (flat_map g l) = existsb (fun a => existsb p (g a)) l.
Proof.
  induction l as [|a l IH]; cbn; [reflexivity|].
  now rewrite existsb_app, IH.
Qed.

Lemma existsb_map {A B : Type} (p : B -> bool) (g : A -> B) (l : list A) :
  existsb p (map g l) = existsb (fun a => p (g a)) l.
Proof. induction l as [|a l IH]; cbn; [reflexivity | now rewrite IH]. Qed.

Lemma existsb_ext' {A : Type} (p q : A -> bool) (l : list A) :
  (forall a, p a = q a) -> existsb p l = existsb q l.
Proof.
  intros H. induction l as [|a l IH]; cbn; [reflexivity | now rewrite H, IH].
Qed.

Lemma satisfies_some_by_operator (F : gmap string (list clause)) (it : item) :
  satisfies_some F it
  = existsb (fun op => existsb (satisfied op it) (clauses_for F (op_name op))) operators.
Proof.
  unfold satisfies_some, clauses_of. rewrite existsb_flat_map.
  apply existsb_ext'. intros op. now rewrite existsb_map.
Qed.

Lemma or_loop_satisfies_some (F : gmap string (list clause)) (R res : list item) :
  plain_or F = true ->
  or_loop F R [] = Ok res ->
  res = List.filter (satisfies_some F) R.
Proof.
  intros Hp Hrun. apply or_loop_spec in Hrun as [-> Hall]. cbn [app].
  apply filter_ext_in. intros it Hit. rewrite Forall_forall in Hall.
  destruct (Hall it) as [b Hb]; [now apply list_elem_of_In|].
  rewrite Hb, satisfies_some_by_operator.
  rewrite <- (or_from_exact operators or_stages F it b (or_stages_exact F Hp) Hb).
  now destruct b.
Qed.

Lemma and_loop_satisfies_all (F : gmap string (list clause)) (R res : list item) :
  ordering_ok F R = true ->
  and_loop F R [] = Ok res ->
  res = List.filter (satisfies_all F) R.
Proof.
  intros Hord Hrun. apply and_loop_spec in Hrun as [-> Hall]. cbn [app].
  apply filter_ext_in. intros it Hit. rewrite Forall_forall in Hall.
  destruct (Hall it) as [b Hb]; [now apply list_elem_of_In|].
  rewrite Hb. unfold ordering_ok in Hord. rewrite forallb_forall in Hord.
  rewrite <- (and_item_spec F it b (Hord it Hit) Hb). now destruct b.
Qed.

(** X14. On a FilterSpec without [ine] clause and with at most one
    [ieq] clause, what [filterOr] returns is exactly the records that
    satisfy at least one clause, in their order. *)
Theorem filterOr_exact_without_ine
    (R : list item) (kwargs : list (string * value))
    (F : gmap string (list clause)) (res : list item) :
  getFiltersFromArgs kwargs = Ok F ->
  plain_or F = true ->
  filterOr R kwargs = Ok res ->
  res = List.filter (satisfies_some F) R.
Proof.
  intros HF Hp Hrun. unfold filterOr in Hrun. rewrite HF in Hrun.
  now apply or_loop_satisfies_some.
Qed.

Lemma ieq_within_clauses (F : gmap string (list clause)) :
  length (clauses_for F "ieq") <= length (clauses_of F).
Proof.
  unfold clauses_of, operators. cbn [flat_map op_name].
  rewrite !length_app, !length_map. lia.
Qed.

(** X15. With a single argument that is not an [ine] clause, on values
    that are mutually ordered where they are compared, [filterAnd] and
    [filterOr] return the same sequence when both return. *)
Theorem single_argument_and_or_agree
    (R ra ro : list item) (kv : string * value)
    (F : gmap string (list clause)) :
  getFiltersFromArgs [kv] = Ok F ->
  clauses_for F "ine" = [] ->
  ordering_ok F R = true ->
  filterAnd R [kv] = Ok ra ->
  filterOr R [kv] = Ok ro ->
  ra = ro.
Proof.
  intros HF Hine Hord Ha Ho. unfold filterAnd in Ha. unfold filterOr in Ho.
  rewrite HF in Ha, Ho. cbn [bind] in Ha, Ho.
  assert (Hlen : length (clauses_of F) = 1) by exact (clauses_of_length [kv] F HF).
  assert (Hp : plain_or F = true).
  { unfold plain_or. rewrite Hine. cbn [andb]. apply Nat.leb_le.
    rewrite <- Hlen. apply ieq_within_clauses. }
  rewrite (and_loop_satisfies_all F R ra Hord Ha).
  rewrite (or_loop_satisfies_some F R ro Hp Ho).
  apply filter_ext. intros it. unfold satisfies_all, satisfies_some.
  destruct (clauses_of F) as [|oc [|oc' l]]; try discriminate.
  cbn. now rewrite andb_true_r, orb_false_r.
Qed.

Lemma and_loop_app (F : gmap string (list clause)) (R1 R2 ret : list item) :
  and_loop F (R1 ++ R2) ret = do r <- and_loop F R1 ret; and_loop F R2 r.
Proof.
  revert ret. induction R1 as [|it R1 IH]; intros ret; cbn [app and_loop bind];
    [reflexivity|].
  destruct (and_item F it); cbn [bind]; [apply IH | reflexivity].
Qed.

Lemma and_loop_ret (F : gmap string (list clause)) (R ret : list item) :
  and_loop F R ret = do r <- and_loop F R []; Ok (ret ++ r)%list.
Proof.
  revert ret. induction R as [|it R IH]; intros ret; cbn [and_loop bind].
  - now rewrite app_nil_r.
  - destruct (and_item F it) as [keep|]; cbn [bind]; [|reflexivity].
    rewrite (IH (if keep then (ret ++ [it])%list else ret)).
    rewrite (IH (if keep then ([] ++ [it])%list else [])).
    destruct (and_loop F R []) as [r|]; cbn [bind]; [|reflexivity].
    destruct keep; cbn [app]; [now rewrite <- app_assoc | reflexivity].
Qed.

Lemma or_loop_app (F : gmap string (list clause)) (R1 R2 ret : list item) :
  or_loop F (R1 ++ R2) ret = do r <- or_loop F R1 ret; or_loop F R2 r.
Proof.
  revert ret. induction R1 as [|it R1 IH]; intros ret; cbn [app or_loop bind];
    [reflexivity|].
  destruct (or_item F it); cbn [bind]; [apply IH | reflexivity].
Qed.

Lemma or_loop_ret (F : gmap string (list clause)) (R ret : list item) :
  or_loop F R ret = do r <- or_loop F R []; Ok (ret ++ r)%list.
Proof.
  revert ret. induction R as [|it R IH]; intros ret; cbn [or_loop bind].
  - now rewrite app_nil_r.
  - destruct (or_item F it) as [keep|]; cbn [bind]; [|reflexivity].
    rewrite (IH (if keep then (ret ++ [it])%list else ret)).
    rewrite (IH (if keep then ([] ++ [it])%list else [])).
    destruct (or_loop F R []) as [r|]; cbn [bind]; [|reflexivity].
    destruct keep; cbn [app]; [now rewrite <- app_assoc | reflexivity].
Qed.

(** X16. Both functions work record by record: filtering the
    concatenation of two sequences gives the concatenation of the two
    filtered sequences, and raises what the first failing part raises. *)
Theorem filters_distribute_over_concatenation
    (R1 R2 : list item) (kwargs : list (string * value)) :
  filterAnd (R1 ++ R2) kwargs
  = (do a <- filterAnd R1 kwargs; do b <- filterAnd R2 kwargs; Ok (a ++ b)%list)
  /\ filterOr (R1 ++ R2) kwargs
     = (do a <- filterOr R1 kwargs; do b <- filterOr R2 kwargs; Ok (a ++ b)%list).
Proof.
  unfold filterAnd, filterOr.
  destruct (getFiltersFromArgs kwargs) as [F|]; cbn [bind]; [|split; reflexivity].
  split.
  - rewrite and_loop_app. destruct (and_loop F R1 []) as [a|]; cbn [bind];
      [apply and_loop_ret | reflexivity].
  - rewrite or_loop_app. destruct (or_loop F R1 []) as [a|]; cbn [bind];
      [apply or_loop_ret | reflexivity].
Qed.

End OrExtras.

(** ** A failing accessor, and the loops over [notcontainsAny] *)

Section Failures.
Context `{M : PyModel}.

(** Every loop body starts by reading the field: what the accessor
    raises, the body raises. *)
Lemma and_bodies_read_first :
  Forall (fun st : string * (item -> string -> value -> result ctl) =>
            forall it f v e, _get_item_value it f = Raise e ->
                             snd st it f v = Raise e)
         and_stages.
Proof.
  unfold and_stages.
  repeat (constructor; [cbn [snd]; intros it f v e He|]); try solve [constructor].
  all: unfold and_is, and_isnot, and_in, and_notin, and_eq, and_ieq, and_ne,
         and_ine, and_lt, and_lte, and_gt, and_gte, and_contains,
         and_notcontains, and_containsAny, and_notcontainsAny.
  all: now rewrite He.
Qed.

Lemma or_bodies_read_first :
  Forall (fun st : string * (item -> string -> value -> result ctl) =>
            forall it f v e, _get_item_value it f = Raise e ->
                             snd st it f v = Raise e)
         or_stages.
Proof.
  unfold or_stages.
  repeat (constructor; [cbn [snd]; intros it f v e He|]); try solve [constructor].
  all: unfold or_is, or_isnot, or_in, or_notin, or_eq, or_ieq, or_ne,
         or_ine, or_lt, or_lte, or_gt, or_gte, or_contains,
         or_notcontains, or_containsAny, or_notcontainsAny.
  all: now rewrite He.
Qed.

Lemma and_from_accessor_raises
    (stages : list (string * (item -> string -> value -> result ctl)))
    (F : gmap string (list clause)) (it : item) (e : exn) :
  Forall reads_first stages ->
  (forall f, _get_item_value it f = Raise e) ->
  Forall (fun st => is_Some (F !! fst st)) stages ->
  ~ Forall (fun st => clauses_for F (fst st) = []) stages ->
  and_from stages F it true = Raise e.
Proof.
  intros Hrd Hget. induction Hrd as [|[k body] stages Hb _ IH]; intros Hkeys Hne.
  - destruct Hne. constructor.
  - apply Forall_cons in Hkeys as [[cs Hk] Hkeys]. cbn [fst] in Hk.
    unfold reads_first in Hb. cbn [snd] in Hb. cbn [and_from]. unfold dict_get. rewrite Hk. cbn [bind].
    destruct cs as [|[f v] cs].
    + cbn [for_clauses bind negb]. apply IH; [exact Hkeys|].
      intros Hall. apply Hne. constructor; [|exact Hall].
      cbn [fst]. unfold clauses_for. now rewrite Hk.
    + cbn [for_clauses]. now rewrite (Hb it f v e (Hget f)).
Qed.

Lemma or_from_accessor_raises
    (stages : list (string * (item -> string -> value -> result ctl)))
    (F : gmap string (list clause)) (it : item) (e : exn) :
  Forall reads_first stages ->
  (forall f, _get_item_value it f = Raise e) ->
  Forall (fun st => is_Some (F !! fst st)) stages ->
  ~ Forall (fun st => clauses_for F (fst st) = []) stages ->
  or_from stages F it false = Raise e.
Proof.
  intros Hrd Hget. induction Hrd as [|[k body] stages Hb _ IH]; intros Hkeys Hne.
  - destruct Hne. constructor.
  - apply Forall_cons in Hkeys as [[cs Hk] Hkeys]. cbn [fst] in Hk.
    unfold reads_first in Hb. cbn [snd] in Hb. cbn [or_from]. unfold dict_get. rewrite Hk. cbn [bind].
    destruct cs as [|[f v] cs].
    + cbn [for_clauses bind]. apply IH; [exact Hkeys|].
      intros Hall. apply Hne. constructor; [|exact Hall].
      cbn [fst]. unfold clauses_for. now rewrite Hk.
    + cbn [for_clauses]. now rewrite (Hb it f v e (Hget f)).
Qed.

Lemma stages_keys (kwargs : list (string * value)) (F : gmap string (list clause)) :
  getFiltersFromArgs kwargs = Ok F ->
  Forall (fun st : string * (item -> string -> value -> result ctl) =>
            is_Some (F !! fst st)) and_stages
  /\ Forall (fun st : string * (item -> string -> value -> result ctl) =>
               is_Some (F !! fst st)) or_stages.
Proof.
  intros HF.
  assert (H : forall k, In k (map op_name operators) -> is_Some (F !! k)).
  { intros k Hk. destruct (parsed_has_key kwargs F k HF Hk) as [cs ->]. eauto. }
  split; unfold and_stages, or_stages;
    repeat (constructor; [apply H; cbn; auto 20|]); constructor.
Qed.

Lemma no_clause_in_stages (F : gmap string (list clause)) :
  (Forall (fun st : string * (item -> string -> value -> result ctl) =>
             clauses_for F (fst st) = []) and_stages
   \/ Forall (fun st : string * (item -> string -> value -> result ctl) =>
                clauses_for F (fst st) = []) or_stages) ->
  clauses_of F = [].
Proof.
  intros H.
  assert (Hk : forall op, clauses_for F (op_name op) = []).
  { destruct H as [H | H]; rewrite Forall_forall in H; intros op;
      [apply (H (op_name op, match op with
          | OpIs => and_is | OpIsnot => and_isnot | OpIn => and_in
          | OpNotin => and_notin | OpEq => and_eq | OpIeq => and_ieq
          | OpNe => and_ne | OpIne => and_ine | OpLt => and_lt
          | OpLte => and_lte | OpGt => and_gt | OpGte => and_gte
          | OpContains => and_contains | OpNotcontains => and_notcontains
          | OpContainsAny => and_containsAny
          | OpNotcontainsAny => and_notcontainsAny end))
      | apply (H (op_name op, match op with
          | OpIs => or_is | OpIsnot => or_isnot | OpIn => or_in
          | OpNotin => or_notin | OpEq => or_eq | OpIeq => or_ieq
          | OpNe => or_ne | OpIne => or_ine | OpLt => or_lt
          | OpLte => or_lte | OpGt => or_gt | OpGte => or_gte
          | OpContains => or_contains | OpNotcontains => or_notcontains
          | OpContainsAny => or_containsAny
          | OpNotcontainsAny => or_notcontainsAny end))];
      apply list_elem_of_In; destruct op; cbn; auto 20. }
  unfold clauses_of. induction operators as [|op ops IH]; cbn; [reflexivity|].
  now rewrite Hk, IH.
Qed.

(** X17. When the accessor raises on every field of the first record,
    as [QueryableListBase._get_item_value] does with
    [NotImplementedError] on every record, and there is at least one
    filter argument, [filterAnd] and [filterOr] raise the same
    exception: nothing is caught and no sequence is returned. *)
Theorem accessor_exception_propagates
    (it : item) (rest : list item) (kwargs : list (string * value))
    (F : gmap string (list clause)) (e : exn) :
  getFiltersFromArgs kwargs = Ok F ->
  kwargs <> [] ->
  (forall f, _get_item_value it f = Raise e) ->
  filterAnd (it :: rest) kwargs = Raise e
  /\ filterOr (it :: rest) kwargs = Raise e.
Proof.
  intros HF Hkw Hget. destruct (stages_keys kwargs F HF) as [Ka Ko].
  assert (Hne : clauses_of F <> []).
  { intros Hnil. apply (f_equal (@length _)) in Hnil.
    rewrite (clauses_of_length kwargs F HF) in Hnil.
    destruct kwargs; [congruence | discriminate]. }
  unfold filterAnd, filterOr. rewrite HF. cbn [bind and_loop or_loop].
  unfold and_item, or_item. split.
  - rewrite (and_from_accessor_raises and_stages F it e and_bodies_read_first Hget Ka);
      [reflexivity|].
    intros H. apply Hne, no_clause_in_stages. now left.
  - rewrite (or_from_accessor_raises or_stages F it e or_bodies_read_first Hget Ko);
      [reflexivity|].
    intros H. apply Hne, no_clause_in_stages. now right.
Qed.

Lemma and_accepts_notcontainsAny (F : gmap string (list clause)) (it : item) :
  clauses_for F "notcontainsAny" <> [] -> and_accepts F it = false.
Proof.
  intros Hne. unfold and_accepts, and_stages. cbn [forallb fst snd].
  destruct (clauses_for F "notcontainsAny") as [|[f v] cs]; [congruence|].
  cbn [forallb fst snd].
  destruct (and_notcontainsAny_raises it f v) as [e ->]. cbn [is_next andb].
  now rewrite !andb_false_r.
Qed.

Lemma or_from_rejects_runs_all
    (stages : list (string * (item -> string -> value -> result ctl)))
    (F : gmap string (list clause)) (it : item) :
  or_from stages F it false = Ok false ->
  Forall (fun st => exists cs, dict_get F (fst st) = Ok cs
                               /\ for_clauses (snd st it) cs false = Ok false)
         stages.
Proof.
  induction stages as [|[k body] stages IH]; cbn [or_from]; [constructor|].
  intros H. apply bind_ok in H as (cs & Hcs & H).
  apply bind_ok in H as (k' & Hk' & H). destruct k'; [discriminate|].
  constructor; [exists cs; now split | now apply IH].
Qed.

Lemma or_item_notcontainsAny (F : gmap string (list clause)) (it : item) (b : bool) :
  clauses_for F "notcontainsAny" <> [] -> or_item F it = Ok b -> b = true.
Proof.
  intros Hne Hb. destruct b; [reflexivity|]. exfalso.
  apply or_from_rejects_runs_all in Hb. rewrite Forall_forall in Hb.
  destruct (Hb ("notcontainsAny", or_notcontainsAny)) as (cs & Hcs & Hrun).
  { apply list_elem_of_In. unfold or_stages. cbn. auto 20. }
  cbn [fst snd] in *. apply dict_get_clauses_for in Hcs. rewrite Hcs in Hne.
  destruct cs as [|[f v] cs]; [congruence|]. cbn [for_clauses] in Hrun.
  destruct (or_notcontainsAny_raises it f v) as [e He]. now rewrite He in Hrun.
Qed.

(** X18. With a [notcontainsAny] clause in the FilterSpec, a record
    that reaches the last loop makes the call raise. So [filterAnd]
    returns only when every record was rejected before, and then
    returns the empty sequence; [filterOr] returns only when every
    record was accepted before, and then returns all the records. *)
Theorem notcontainsAny_all_or_nothing
    (R : list item) (kwargs : list (string * value))
    (F : gmap string (list clause)) :
  getFiltersFromArgs kwargs = Ok F ->
  clauses_for F "notcontainsAny" <> [] ->
  (forall res, filterAnd R kwargs = Ok res -> res = [])
  /\ (forall res, filterOr R kwargs = Ok res -> res = R).
Proof.
  intros HF Hne. unfold filterAnd, filterOr. rewrite HF. cbn [bind]. split.
  - intros res H. apply and_loop_accepts in H as [-> _].
    induction R as [|it R IH]; [reflexivity|]. cbn [List.filter].
    now rewrite (and_accepts_notcontainsAny F it Hne).
  - intros res H. apply or_loop_spec in H as [-> Hall]. cbn [app].
    induction Hall as [|it R [b Hb] _ IH]; [reflexivity|]. cbn [List.filter].
    rewrite Hb, (or_item_notcontainsAny F it b Hne Hb). cbn [is_true].
    now rewrite IH.
Qed.

End Failures.

(** ** The further properties on concrete arguments and records *)

(** X1, on [age__gte]. *)
Lemma FILTER_PARAM_RE_groups_witness :
  FILTER_PARAM_RE_match "age__gte" = Some ("age", "gte")
  /\ ("age__gte" = "age" +:+ "__" +:+ "gte"
      \/ "age__gte" = "age" +:+ "__" +:+ "gte" +:+ nl).
Proof.
  split; [reflexivity|].
  exact (proj1 (FILTER_PARAM_RE_groups "age__gte" "age" "gte" eq_refl)).
Defined.

(** X2, on [a__b__ne], which can be read as [a] and [b__ne]: the match
    takes a longer field. *)
Lemma FILTER_PARAM_RE_takes_longest_field_witness :
  FILTER_PARAM_RE_match "a__b__ne" = Some ("a__b", "ne")
  /\ exists field ft,
       FILTER_PARAM_RE_match "a__b__ne" = Some (field, ft)
       /\ String.length "a" <= String.length field.
Proof.
  split; [reflexivity|].
  apply (FILTER_PARAM_RE_takes_longest_field "a__b__ne" "a" "b__ne");
    [discriminate | reflexivity | discriminate | reflexivity | left; reflexivity].
Defined.

(** X3, on the field [a__b] and the filter type [ne]. *)
Lemma FILTER_PARAM_RE_splits_at_operator_witness :
  FILTER_PARAM_RE_match ("a__b" +:+ "__" +:+ "ne") = Some ("a__b", "ne").
Proof.
  apply (FILTER_PARAM_RE_splits_at_operator "a__b" "ne");
    [discriminate | reflexivity | discriminate | reflexivity | reflexivity].
Defined.

(** X4, on [age__gte=30, name__ine="tom"] and the key [lt]. *)
Lemma parsed_keys_are_the_operators_witness :
  getFiltersFromArgs kw_gte_ine = Ok F_gte_ine
  /\ (is_Some (F_gte_ine !! "lt") <-> In "lt" (map op_name operators)).
Proof.
  assert (H : getFiltersFromArgs kw_gte_ine = Ok F_gte_ine)
    by (vm_compute; reflexivity).
  split; [exact H|].
  exact (parsed_keys_are_the_operators (M := dict_model) kw_gte_ine F_gte_ine "lt" H).
Defined.

(** X5, on the same arguments. *)
Lemma one_clause_per_argument_witness :
  getFiltersFromArgs kw_gte_ine = Ok F_gte_ine
  /\ length (clauses_of F_gte_ine) = length kw_gte_ine.
Proof.
  assert (H : getFiltersFromArgs kw_gte_ine = Ok F_gte_ine)
    by (vm_compute; reflexivity).
  split; [exact H|].
  exact (one_clause_per_argument (M := dict_model) kw_gte_ine F_gte_ine H).
Defined.

(** X6, on [name="Tom", age__isnull=1]. *)
Lemma parser_raises_only_for_witness :
  getFiltersFromArgs [("name", PStr "Tom"); ("age__isnull", PInt 1)]
  = Raise (ValueError isnull_msg)
  /\ exists key v field ft,
       In (key, v) [("name", PStr "Tom"); ("age__isnull", PInt 1)]
       /\ FILTER_PARAM_RE_match key = Some (field, ft)
       /\ ((in_FILTER_TYPES ft = false
            /\ ValueError isnull_msg = ValueError (unknown_filter_msg ft))
           \/ (ft = "isnull" /\ p_type_is_bool v = false
               /\ ValueError isnull_msg = ValueError isnull_msg)
           \/ ((ft = "ieq" \/ ft = "ine")
               /\ p_lower v = Raise (ValueError isnull_msg))).
Proof.
  assert (H : getFiltersFromArgs [("name", PStr "Tom"); ("age__isnull", PInt 1)]
              = Raise (ValueError isnull_msg)) by (vm_compute; reflexivity).
  split; [exact H|].
  exact (parser_raises_only_for (M := dict_model) _ _ H).
Defined.

(** X7, on [age__in=[25, 25, 30]] and on [age__in=5]. *)
Lemma other_operators_record_the_value_witness :
  (exists l, ret0 !! "in" = Some l /\
     getFiltersFromArgs [("age__in", PList 1 [PInt 25; PInt 25; PInt 30])]
     = Ok (<["in" := (l ++ [("age", PSet 0 [PInt 25; PInt 30])])%list]> ret0))
  /\ (exists l, ret0 !! "in" = Some l /\
        getFiltersFromArgs [("age__in", PInt 5)]
        = Ok (<["in" := (l ++ [("age", PInt 5)])%list]> ret0)).
Proof.
  assert (Hin : In "in" (map op_name operators)) by (cbn; auto 20).
  assert (H1 : "in" <> "ieq") by discriminate.
  assert (H2 : "in" <> "ine") by discriminate.
  split.
  - exact (other_operators_record_the_value (M := dict_model) "age__in" "age" "in"
             (PList 1 [PInt 25; PInt 25; PInt 30]) [] ret0 eq_refl Hin H1 H2 eq_refl).
  - exact (other_operators_record_the_value (M := dict_model) "age__in" "age" "in"
             (PInt 5) [] ret0 eq_refl Hin H1 H2 eq_refl).
Defined.

(** X8, on [age__gte=30] followed by [age__gte=20, name__ine="tom"]. *)
Lemma parse_of_concatenation_witness :
  exists F,
    getFiltersFromArgs ([("age__gte", PInt 30)]
                        ++ [("age__gte", PInt 20); ("name__ine", PStr "tom")])
    = Ok F
    /\ forall k,
         clauses_for F k
         = (clauses_for (<["gte" := [("age", PInt 30)]]> ret0) k
            ++ clauses_for (<["ine" := [("name", PStr "tom")]]>
                              (<["gte" := [("age", PInt 20)]]> ret0)) k)%list.
Proof.
  apply (parse_of_concatenation (M := dict_model)); vm_compute; reflexivity.
Defined.

(** X9, on [age__gte=30, name__ine="tom"] and the same two arguments
    in the other order. *)
Lemma parse_of_permutation_witness :
  exists F',
    getFiltersFromArgs [("name__ine", PStr "tom"); ("age__gte", PInt 30)] = Ok F'
    /\ forall k, Permutation (clauses_for F_gte_ine k) (clauses_for F' k).
Proof.
  apply (parse_of_permutation (M := dict_model) kw_gte_ine).
  - apply perm_swap.
  - vm_compute. reflexivity.
Defined.

(** X10, on the three records: [age__eq=30], then [name__ine="tom"]. *)
Lemma filterAnd_chained_witness :
  filterAnd [tom; amy; sam] [("age__eq", PInt 30)] = Ok [tom; sam]
  /\ filterAnd [tom; sam] [("name__ine", PStr "tom")] = Ok [sam]
  /\ filterAnd [tom; amy; sam] ([("age__eq", PInt 30)] ++ [("name__ine", PStr "tom")])
     = Ok [sam]
  /\ [sam] = [sam].
Proof.
  assert (H1 : filterAnd [tom; amy; sam] [("age__eq", PInt 30)] = Ok [tom; sam])
    by (vm_compute; reflexivity).
  assert (H2 : filterAnd [tom; sam] [("name__ine", PStr "tom")] = Ok [sam])
    by (vm_compute; reflexivity).
  assert (H3 : filterAnd [tom; amy; sam]
                 ([("age__eq", PInt 30)] ++ [("name__ine", PStr "tom")]) = Ok [sam])
    by (vm_compute; reflexivity).
  split; [exact H1|]. split; [exact H2|]. split; [exact H3|].
  exact (filterAnd_chained (M := dict_model) _ _ _ _ _ _ H1 H2 H3).
Defined.

(** X11, on the three records and the two orders of [age__eq=30,
    name__ine="tom"]. *)
Lemma filterAnd_argument_order_witness :
  filterAnd [tom; amy; sam] kw_eq_ine = Ok [sam]
  /\ filterAnd [tom; amy; sam] [("name__ine", PStr "tom"); ("age__eq", PInt 30)]
     = Ok [sam]
  /\ [sam] = [sam].
Proof.
  assert (H1 : filterAnd [tom; amy; sam] kw_eq_ine = Ok [sam])
    by (vm_compute; reflexivity).
  assert (H2 : filterAnd [tom; amy; sam]
                 [("name__ine", PStr "tom"); ("age__eq", PInt 30)] = Ok [sam])
    by (vm_compute; reflexivity).
  split; [exact H1|]. split; [exact H2|].
  exact (filterAnd_argument_order (M := dict_model) _ _ _ _ _
           (perm_swap _ _ []) H1 H2).
Defined.

(** X12, on the three records and [age__gte=30, name__ine="tom"]. *)
Lemma filterOr_subsequence_and_sound_witness :
  getFiltersFromArgs kw_gte_ine = Ok F_gte_ine
  /\ filterOr [tom; amy; sam] kw_gte_ine = Ok [tom; amy; sam]
  /\ sublist [tom; amy; sam] [tom; amy; sam].
Proof.
  assert (H1 : getFiltersFromArgs kw_gte_ine = Ok F_gte_ine)
    by (vm_compute; reflexivity).
  assert (H2 : filterOr [tom; amy; sam] kw_gte_ine = Ok [tom; amy; sam])
    by (vm_compute; reflexivity).
  split; [exact H1|]. split; [exact H2|].
  exact (proj1 (filterOr_subsequence_and_sound (M := dict_model) _ _ _ _ H1 H2)).
Defined.

(** X13, on the three records and [age__gte=30]. *)
Lemma filterOr_idempotent_witness :
  filterOr [tom; amy; sam] [("age__gte", PInt 30)] = Ok [tom; sam]
  /\ filterOr [tom; sam] [("age__gte", PInt 30)] = Ok [tom; sam].
Proof.
  assert (H : filterOr [tom; amy; sam] [("age__gte", PInt 30)] = Ok [tom; sam])
    by (vm_compute; reflexivity).
  split; [exact H|].
  exact (filterOr_idempotent (M := dict_model) _ _ _ H).
Defined.

(** X14, on the three records and [age__lt=30, name__ieq="SAM"]. *)
Lemma filterOr_exact_without_ine_witness :
  getFiltersFromArgs [("age__lt", PInt 30); ("name__ieq", PStr "SAM")]
  = Ok (<["ieq" := [("name", PStr "sam")]]> (<["lt" := [("age", PInt 30)]]> ret0))
  /\ filterOr [tom; amy; sam] [("age__lt", PInt 30); ("name__ieq", PStr "SAM")]
     = Ok [amy; sam]
  /\ [amy; sam]
     = List.filter
         (satisfies_some
            (<["ieq" := [("name", PStr "sam")]]> (<["lt" := [("age", PInt 30)]]> ret0)))
         [tom; amy; sam].
Proof.
  assert (H1 : getFiltersFromArgs [("age__lt", PInt 30); ("name__ieq", PStr "SAM")]
               = Ok (<["ieq" := [("name", PStr "sam")]]>
                       (<["lt" := [("age", PInt 30)]]> ret0)))
    by (vm_compute; reflexivity).
  assert (H2 : filterOr [tom; amy; sam]
                 [("age__lt", PInt 30); ("name__ieq", PStr "SAM")] = Ok [amy; sam])
    by (vm_compute; reflexivity).
  split; [exact H1|]. split; [exact H2|].
  apply (filterOr_exact_without_ine (M := dict_model) _ _ _ _ H1);
    [vm_compute; reflexivity | exact H2].
Defined.

(** X15, on the three records and the single argument [age__gte=30]. *)
Lemma single_argument_and_or_agree_witness :
  filterAnd [tom; amy; sam] [("age__gte", PInt 30)] = Ok [tom; sam]
  /\ filterOr [tom; amy; sam] [("age__gte", PInt 30)] = Ok [tom; sam]
  /\ [tom; sam] = [tom; sam].
Proof.
  assert (H1 : filterAnd [tom; amy; sam] [("age__gte", PInt 30)] = Ok [tom; sam])
    by (vm_compute; reflexivity).
  assert (H2 : filterOr [tom; amy; sam] [("age__gte", PInt 30)] = Ok [tom; sam])
    by (vm_compute; reflexivity).
  split; [exact H1|]. split; [exact H2|].
  apply (single_argument_and_or_agree (M := dict_model) [tom; amy; sam] _ _
           ("age__gte", PInt 30) (<["gte" := [("age", PInt 30)]]> ret0));
    try assumption; vm_compute; reflexivity.
Defined.

(** X17, on [QueryableListBase] itself. *)
Lemma accessor_exception_propagates_witness :
  filterAnd (M := base_model) [PInt 1; PInt 2] [("a", PInt 1)]
  = Raise NotImplementedError
  /\ filterOr (M := base_model) [PInt 1; PInt 2] [("a", PInt 1)]
     = Raise NotImplementedError.
Proof.
  apply (accessor_exception_propagates (M := base_model) (PInt 1) [PInt 2]
           [("a", PInt 1)] (<["eq" := [("a", PInt 1)]]> (ret0 (M := base_model)))).
  - vm_compute. reflexivity.
  - discriminate.
  - intros f. reflexivity.
Defined.

(** X18, on [age__eq=30, name__notcontainsAny=["q"]]: Amy is rejected
    by the first clause, Tom is accepted by it. *)
Lemma notcontainsAny_all_or_nothing_witness :
  filterAnd [amy] [("age__eq", PInt 30); ("name__notcontainsAny", PList 1 [PStr "q"])]
  = Ok []
  /\ filterOr [tom] [("age__eq", PInt 30); ("name__notcontainsAny", PList 1 [PStr "q"])]
     = Ok [tom]
  /\ (forall res,
        filterAnd [tom]
          [("age__eq", PInt 30); ("name__notcontainsAny", PList 1 [PStr "q"])]
        = Ok res -> res = []).
Proof.
  split; [vm_compute; reflexivity|]. split; [vm_compute; reflexivity|].
  apply (notcontainsAny_all_or_nothing (M := dict_model) [tom]
           [("age__eq", PInt 30); ("name__notcontainsAny", PList 1 [PStr "q"])]
           (<["notcontainsAny" := [("name", PList 1 [PStr "q"])]]>
              (<["eq" := [("age", PInt 30)]]> ret0))).
  - vm_compute. reflexivity.
  - vm_compute. discriminate.
Defined.
